(** * Path reconstruction and coordinate transformation: a shallow embedding

    The development follows [app/utils/geometry_utils.py] and
    [app/services/coordinate_service.py].

    - Python [float] is IEEE 754 binary64: it is modelled by Rocq's primitive
      floats, whose operations are the same correctly rounded ones.
    - Python [int] is unbounded: it is modelled by [Z].  An [int] handed to a
      float operation ([math.sqrt], [math.atan2], [float(..)], [float * int])
      is converted with round-to-nearest-even and raises [OverflowError] when
      it is beyond the binary64 range.
    - Exceptions are modelled by the [result] type; a loop whose termination
      is not structural carries a fuel argument and reports [OutOfFuel]. *)

From Stdlib Require Import ZArith Floats Lia Ascii.
From stdpp Require Import base option relations list sorting sets gmap strings.

Set Warnings "-inexact-float,-clear-no-such-hyp".
Open Scope Z_scope.

(** ** Exceptions *)

Inductive exn : Type :=
  | OverflowError
  | IndexError
  | ValueError
  | TypeError
  | AttributeError
  | OutOfFuel.

Inductive result (A : Type) : Type :=
  | Ok (a : A)
  | Raise (e : exn).
Arguments Ok {A} a.
Arguments Raise {A} e.

#[export] Instance result_ret : MRet result := fun _ a => Ok a.
#[export] Instance result_bind : MBind result := fun _ _ k m =>
  match m with
  | Ok a => k a
  | Raise e => Raise e
  end.

Definition is_ok {A : Type} (m : result A) : bool :=
  match m with Ok _ => true | Raise _ => false end.

(** [l[i]], [l[-1]]: a missing element is an [IndexError]. *)
Definition index {A : Type} (o : option A) : result A :=
  match o with Some a => Ok a | None => Raise IndexError end.

(** A [for] loop that updates one variable and may raise. *)
Fixpoint foldM {A B : Type} (f : A -> B -> result A) (a : A) (l : list B)
  : result A :=
  match l with
  | [] => Ok a
  | b :: l' => a' ← f a b; foldM f a' l'
  end.

Fixpoint forM {A B : Type} (f : A -> result B) (l : list A) : result (list B) :=
  match l with
  | [] => Ok []
  | a :: l' => b ← f a; bs ← forM f l'; Ok (b :: bs)
  end.

(** ** Numbers *)

(** [float(n)] for a Python [int]: correctly rounded, [OverflowError] when
    the rounded value is not finite. *)
Definition float_of_int (n : Z) : result float :=
  match binary_normalize prec emax n 0 false with
  | S754_infinity _ => Raise OverflowError
  | f => Ok (SF2Prim f)
  end.

(** ** Geometry primitives ([geometry_utils.py]) *)

Definition point : Type := Z * Z.
Definition segment : Type := point * point.

(** [sqrt((p1[0] - p2[0]) ** 2 + (p1[1] - p2[1]) ** 2)] on integer pixel
    coordinates: the sum of squares is an exact [int], [sqrt] converts it. *)
Definition sum_squares (p1 p2 : point) : Z :=
  (p1.1 - p2.1) ^ 2 + (p1.2 - p2.2) ^ 2.

Definition distance (p1 p2 : point) : result float :=
  x ← float_of_int (sum_squares p1 p2);
  Ok (PrimFloat.sqrt x).

(** [a or b] with Python's short circuit: [b] is not evaluated, and cannot
    raise, once [a] is true. *)
Definition lazy_or (a b : result bool) : result bool :=
  match a with
  | Ok true => Ok true
  | Ok false => b
  | Raise e => Raise e
  end.

Definition closer (p1 p2 : point) (threshold : float) : result bool :=
  d ← distance p1 p2; Ok (PrimFloat.ltb d threshold).

Definition are_connected_or_close (seg1 seg2 : segment) (threshold : float)
  : result bool :=
  lazy_or (closer seg1.1 seg2.1 threshold)
 (lazy_or (closer seg1.1 seg2.2 threshold)
 (lazy_or (closer seg1.2 seg2.1 threshold)
          (closer seg1.2 seg2.2 threshold))).

(** ** Segment clustering ([find_groups]) *)

(** The three variables the breadth-first search updates: the [visited] set,
    the [group] under construction and the [queue]. *)
Record bfs_state : Type := BfsState {
  visited : gset segment;
  group : list segment;
  queue : list segment
}.

Definition visit (seg : segment) (st : bfs_state) : bfs_state :=
  {| visited := visited st ∪ {[seg]};
     group := group st ++ [seg];
     queue := queue st ++ [seg] |}.

(** The inner [for seg in segments] around one [current_segment]. *)
Fixpoint scan (threshold : float) (current_segment : segment)
    (segments : list segment) (st : bfs_state) : result bfs_state :=
  match segments with
  | [] => Ok st
  | seg :: rest =>
      if decide (seg ∈ visited st) then scan threshold current_segment rest st
      else
        c ← are_connected_or_close current_segment seg threshold;
        scan threshold current_segment rest (if c : bool then visit seg st else st)
  end.

(** [while queue: current_segment = queue.popleft(); ...]. *)
Fixpoint drain (fuel : nat) (threshold : float) (segments : list segment)
    (st : bfs_state) : result bfs_state :=
  match queue st with
  | [] => Ok st
  | current_segment :: q =>
      match fuel with
      | O => Raise OutOfFuel
      | S fuel' =>
          st' ← scan threshold current_segment segments
                  {| visited := visited st; group := group st; queue := q |};
          drain fuel' threshold segments st'
      end
  end.

(** The outer [for segment in segments], over the part [todo] of the list
    still to be looked at. *)
Fixpoint collect (fuel : nat) (threshold : float) (segments todo : list segment)
    (seen : gset segment) (groups : list (list segment))
  : result (list (list segment)) :=
  match todo with
  | [] => Ok groups
  | seg :: rest =>
      if decide (seg ∈ seen) then collect fuel threshold segments rest seen groups
      else
        st ← drain fuel threshold segments
               {| visited := seen ∪ {[seg]}; group := [seg]; queue := [seg] |};
        collect fuel threshold segments rest (visited st) (groups ++ [group st])
  end.

(** Every pass of the [while] loop removes one segment from the queue, and a
    segment enters the queue once: [len(segments)] passes are enough. *)
Definition find_groups (segments : list segment) (threshold : float)
  : result (list (list segment)) :=
  collect (length segments) threshold segments segments ∅ [].

(** The two endpoints of a segment. *)
Definition endpoints (seg : segment) : list point := [seg.1; seg.2].

(** The four distances one proximity test may compute are in the binary64
    range, so that the test cannot raise. *)
Definition endpoint_distances_finite (seg1 seg2 : segment) : bool :=
  is_ok (distance seg1.1 seg2.1) && is_ok (distance seg1.1 seg2.2)
  && is_ok (distance seg1.2 seg2.1) && is_ok (distance seg1.2 seg2.2).

(** Pixel coordinates of any image in practice: below 2^25 in absolute
    value.  Differences, and sums of two squared differences, of such
    coordinates are integers below 2^53, which binary64 holds exactly. *)
Definition in_pixel_range (p : point) : Prop :=
  Z.abs p.1 < 2 ^ 25 ∧ Z.abs p.2 < 2 ^ 25.

(** The inputs on which no distance computation of [find_groups] raises. *)
Definition distances_finite (segments : list segment) : bool :=
  forallb (fun a => forallb (endpoint_distances_finite a) segments) segments.

(** [adjacent t a b]: the test of the search succeeds on [a] and [b]. *)
Definition adjacent (threshold : float) (a b : segment) : Prop :=
  are_connected_or_close a b threshold = Ok true.

(** A chain of pairwise [are_connected_or_close] relations through segments
    of the input. *)
Definition linked (segments : list segment) (threshold : float)
  : relation segment :=
  rtc (fun a b => b ∈ segments ∧ adjacent threshold a b).

(** Two segments lie in the same output group. *)
Definition same_group (groups : list (list segment)) (a b : segment) : Prop :=
  ∃ g, g ∈ groups ∧ a ∈ g ∧ b ∈ g.

(** What holds of the search from [seed] each time the [while] test is
    evaluated; [seen] is the visited set the search started from. *)
Definition bfs_inv (segments : list segment) (threshold : float)
    (seen : gset segment) (seed : segment) (st : bfs_state) : Prop :=
  visited st = seen ∪ list_to_set (group st)
  ∧ NoDup (group st)
  ∧ (∀ x, x ∈ group st ->
       (x ∉ seen) ∧ x ∈ segments ∧ linked segments threshold seed x)
  ∧ seed ∈ group st
  ∧ queue st ⊆ group st
  ∧ (∀ x y, x ∈ group st -> x ∉ queue st -> y ∈ segments ->
       adjacent threshold x y -> y ∈ visited st).

(** The segments the search has not reached yet: the variant of the
    [while] loop, together with the queue length. *)
Definition unvisited (segments : list segment) (st : bfs_state) : nat :=
  size (list_to_set segments ∖ visited st : gset segment).

(** A set of segments no test leads out of. *)
Definition closed (segments : list segment) (threshold : float)
    (V : gset segment) : Prop :=
  ∀ x y, x ∈ V -> y ∈ segments -> adjacent threshold x y -> y ∈ V.

(** [g] is a whole class of [linked]: non-empty, and from any of its
    members exactly the linked input segments. *)
Definition component (segments : list segment) (threshold : float)
    (g : list segment) : Prop :=
  g ≠ [] ∧ ∀ a, a ∈ g ->
    a ∈ segments ∧ ∀ b, b ∈ g ↔ b ∈ segments ∧ linked segments threshold a b.

(** What holds of [visited] and [groups] each time the outer loop of
    [find_groups] starts a pass. *)
Definition groups_inv (segments : list segment) (threshold : float)
    (seen : gset segment) (groups : list (list segment)) : Prop :=
  seen = list_to_set (concat groups)
  ∧ NoDup (concat groups)
  ∧ closed segments threshold seen
  ∧ Forall (component segments threshold) groups.

(** The output groups partition the input: every input segment lies in
    exactly one group, once, and the groups hold input segments only. *)
Definition partitions (segments : list segment)
    (groups : list (list segment)) : Prop :=
  (∀ s, s ∈ segments ->
     ∃ i g, groups !! i = Some g ∧ s ∈ g
            ∧ ∀ j g', groups !! j = Some g' -> s ∈ g' -> j = i)
  ∧ (∀ g, g ∈ groups -> NoDup g ∧ g ≠ [] ∧ g ⊆ segments).

(** ** Path shaping ([filter_zigzag], [smooth_path]) *)

(** [collect_points]: the endpoints of the segments, in order. *)
Definition collect_points (group : list segment) : list point :=
  foldl (fun points seg => points ++ endpoints seg) [] group.


(** [math.degrees(x)] is [x * (180.0 / pi)] in binary64. *)
Definition degrees (x : float) : float :=
  (x * (180 / 0x1.921fb54442d18p+1))%float.

Section Zigzag.

(** [math.atan2] on two binary64 values (the C library's). *)
Variable atan2 : float -> float -> float.

Definition predict_direction (p1 p2 : point) : result float :=
  dy ← float_of_int (p2.2 - p1.2);
  dx ← float_of_int (p2.1 - p1.1);
  Ok (degrees (atan2 dy dx)).

(** [abs(direction_next - direction_prev) <= tolerance]. *)
Definition within_tolerance (direction_prev direction_next tolerance : float)
  : bool :=
  PrimFloat.leb (PrimFloat.abs (direction_next - direction_prev)) tolerance.

(** The body of [for i in range(1, len(points) - 1)]. *)
Definition zigzag_step (points : list point) (tolerance : float)
    (filtered_points : list point) (i : nat) : result (list point) :=
  prev_point ← index (last filtered_points);
  current_point ← index (points !! i);
  next_point ← index (points !! (i + 1)%nat);
  direction_prev ← predict_direction prev_point current_point;
  direction_next ← predict_direction current_point next_point;
  Ok (if within_tolerance direction_prev direction_next tolerance
      then filtered_points ++ [current_point]
      else filtered_points).

Definition filter_zigzag (points : list point) (tolerance : float)
  : result (list point) :=
  if (length points <? 3)%nat then Ok points
  else
    first_point ← index (points !! 0%nat);
    filtered_points ← foldM (zigzag_step points tolerance) [first_point]
                         (seq 1 (length points - 2));
    last_point ← index (last points);
    Ok (filtered_points ++ [last_point]).

(** The test that keeps [cur]: the turn from the direction [prev -> cur]
    to the direction [cur -> next] is within the tolerance. *)
Definition turn_within (tolerance : float) (prev cur next : point) : Prop :=
  ∃ direction_prev direction_next,
    predict_direction prev cur = Ok direction_prev
    ∧ predict_direction cur next = Ok direction_next
    ∧ within_tolerance direction_prev direction_next tolerance = true.

End Zigzag.

(** The point kept at an inner position of the filtered list passed the
    test against the point kept before it and its successor in the input. *)
Definition kept_by_test (atan2 : float -> float -> float)
    (points : list point) (tolerance : float) (prev cur : point) : Prop :=
  ∃ i next, (1 <= i)%nat ∧ (i + 1 < length points)%nat
            ∧ points !! i = Some cur ∧ points !! (i + 1)%nat = Some next
            ∧ turn_within atan2 tolerance prev cur next.

Definition zigzag_inv (atan2 : float -> float -> float)
    (points : list point) (tolerance : float) (first_point : point)
    (filtered_points : list point) : Prop :=
  head filtered_points = Some first_point
  ∧ (∀ p, p ∈ filtered_points -> p ∈ points)
  ∧ ∀ j prev cur, filtered_points !! j = Some prev ->
      filtered_points !! (j + 1)%nat = Some cur ->
      kept_by_test atan2 points tolerance prev cur.

(** [math.atan2] at the arguments of the example path (a rise of 2 or of
    -2 over a run of 1, and level runs to the right), as the C library
    returns them. *)
Definition example_atan2 (y x : float) : float :=
  if PrimFloat.eqb y 2 && PrimFloat.eqb x 1 then 0x1.1b6e192ebbe44p+0
  else if PrimFloat.eqb y (-2) && PrimFloat.eqb x 1 then
    (-0x1.1b6e192ebbe44p+0)
  else if PrimFloat.eqb y 0 && PrimFloat.ltb 0 x then 0
  else PrimFloat.nan.

(** The inputs on which no direction computation of [filter_zigzag] raises:
    every coordinate difference between two points is in the binary64
    range. *)
Definition directions_finite (points : list point) : bool :=
  forallb (fun p => forallb (fun q =>
    is_ok (float_of_int (q.2 - p.2)) && is_ok (float_of_int (q.1 - p.1)))
    points) points.

(** [list(dict.fromkeys(points))]: the keys in the order of their first
    insertion. *)
Definition dict_fromkeys (points : list point) : list point :=
  foldl (fun keys p => if decide (p ∈ keys) then keys else keys ++ [p]) [] points.

Section Smooth.

(** SciPy's spline representation and its two entry points, NumPy's
    [linspace(0, 1, n)] and its cast of a binary64 array to [int32]. *)
Variable tck : Type.
Variable splprep : list Z -> list Z -> float -> nat -> result tck.
Variable splev : list float -> tck -> result (list float * list float).
Variable linspace_0_1 : nat -> list float.
Variable np_int32 : float -> Z.

Definition smooth_path (points : list point) (smoothing_factor : float)
  : list point :=
  if (length points <? 5)%nat then points
  else
    let points := dict_fromkeys points in
    if (length points <? 2)%nat then points
    else
      let x := map fst points in
      let y := map snd points in
      let k := Nat.min 3 (length points - 1) in
      let attempt :=
        spl ← splprep x y smoothing_factor k;
        fine ← splev (linspace_0_1 (length points * 10)) spl;
        Ok (zip (map np_int32 fine.1) (map np_int32 fine.2)) in
      match attempt with
      | Ok smoothed_points => smoothed_points
      | Raise _ => points
      end.

End Smooth.

(** ** Coordinate transformation ([CoordinateService.transform_coordinates]) *)

(** The six coefficients of a world file, named as the source names them. *)
Record world_file : Type := WorldFile {
  wf_A : float;  (* x pixel size *)
  wf_D : float;  (* rotation y *)
  wf_B : float;  (* rotation x *)
  wf_E : float;  (* y pixel size *)
  wf_C : float;  (* x origin *)
  wf_F : float   (* y origin *)
}.

(** [is_projected = (abs(C) > 1000 or abs(F) > 1000 or abs(A) > 1)]. *)
Definition is_projected (w : world_file) : bool :=
  PrimFloat.ltb 1000 (PrimFloat.abs (wf_C w))
  || PrimFloat.ltb 1000 (PrimFloat.abs (wf_F w))
  || PrimFloat.ltb 1 (PrimFloat.abs (wf_A w)).

(** [500000 <= C <= 900000 and 5000000 <= F <= 6500000]. *)
Definition in_utm_envelope (w : world_file) : bool :=
  PrimFloat.leb 500000 (wf_C w) && PrimFloat.leb (wf_C w) 900000
  && PrimFloat.leb 5000000 (wf_F w) && PrimFloat.leb (wf_F w) 6500000.

(** A [pyproj] transformer, by its [transform(x, y)] method. *)
Definition transformer : Type := float -> float -> float * float.

(** The values the property dictionaries hold: [False], a text, the list of
    pixel segments of a path, and the list of [[x, y]] pairs that replaces
    it. *)
Inductive value : Type :=
  | VFalse
  | VStr (s : string)
  | VLines (l : list segment)
  | VCoords (l : list (float * float)).

(** Python's truth value, and [v is not False]. *)
Definition truthy (v : value) : bool :=
  match v with
  | VFalse => false
  | VStr s => negb (String.eqb s "")
  | VLines l => negb (bool_decide (l = []))
  | VCoords l => negb (bool_decide (l = []))
  end.

Definition is_not_False (v : value) : bool :=
  match v with VFalse => false | _ => true end.

(** Objects live in a heap: a property dictionary is shared by reference
    between the caller's list and the list the function returns. *)
Definition loc : Type := positive.

Inductive object : Type :=
  | ODict (d : gmap string value)
  | OList (items : list loc).

Section CoordinateService.

(** [str.strip] and the builtin [float] on a text ([None]: [ValueError]). *)
Variable strip : string -> string.
Variable parse_float : string -> option float.
(** [Transformer.from_crs("EPSG:25832", "EPSG:4326", always_xy=True)]:
    [None] when the call raises. *)
Variable from_crs : option transformer.

(** [float(jgw_lines[i].strip())]. *)
Definition read_coefficient (jgw_lines : list string) (i : nat) : result float :=
  line ← index (jgw_lines !! i);
  match parse_float (strip line) with
  | Some x => Ok x
  | None => Raise ValueError
  end.

Definition parse_jgw (jgw_lines : list string) : result world_file :=
  A ← read_coefficient jgw_lines 0;
  D ← read_coefficient jgw_lines 1;
  B ← read_coefficient jgw_lines 2;
  E ← read_coefficient jgw_lines 3;
  C ← read_coefficient jgw_lines 4;
  F ← read_coefficient jgw_lines 5;
  Ok (WorldFile A D B E C F).

(** The [transformer] variable after the detection block: [from_crs] is
    called exactly when both tests pass, and a failed call leaves [None]. *)
Definition requests_transformer (w : world_file) : bool :=
  if is_projected w then
    if in_utm_envelope w then true else false
  else false.

Definition make_transformer (w : world_file) : option transformer :=
  if is_projected w then
    if in_utm_envelope w then from_crs else None
  else None.

(** [(A * x) + (B * y) + C] and [(D * x) + (E * y) + F]. *)
Definition affine (w : world_file) (x y : float) : float * float :=
  ((wf_A w * x + wf_B w * y + wf_C w)%float,
   (wf_D w * x + wf_E w * y + wf_F w)%float).

Definition reproject (tr : option transformer) (xy : float * float)
  : float * float :=
  match tr with
  | Some f => f xy.1 xy.2
  | None => xy
  end.

(** One pixel point with integer coordinates. *)
Definition transform_point (w : world_file) (tr : option transformer)
    (p : point) : result (float * float) :=
  x ← float_of_int p.1;
  y ← float_of_int p.2;
  Ok (reproject tr (affine w x y)).

(** The body of [for value in line_values]: both endpoints, in order,
    appended to [transformed_coords]. *)
Definition transform_segment (w : world_file) (tr : option transformer)
    (transformed_coords : list (float * float)) (value : segment)
  : result (list (float * float)) :=
  xy1 ← transform_point w tr value.1;
  xy2 ← transform_point w tr value.2;
  Ok (transformed_coords ++ [xy1; xy2]).

(** [transformed_coords] for one truthy [line_values]. *)
Definition transform_lines (w : world_file) (tr : option transformer)
    (line_values : value) : result (list (float * float)) :=
  match line_values with
  | VLines l => foldM (transform_segment w tr) [] l
  | VStr _ => Raise ValueError      (* [a, b = value] on a character *)
  | VCoords _ => Raise TypeError    (* [a[0]] on a float *)
  | VFalse => Ok []
  end.

(** [for poly in polygon_areas], threading the heap. *)
Fixpoint transform_polygons (w : world_file) (tr : option transformer)
    (polys : list loc) (h : gmap loc object) : result unit * gmap loc object :=
  match polys with
  | [] => (Ok (), h)
  | poly :: rest =>
      match h !! poly with
      | Some (ODict d) =>
          match d !! "line_value" with
          | Some line_values =>
              if truthy line_values && is_not_False line_values then
                match transform_lines w tr line_values with
                | Ok transformed_coords =>
                    transform_polygons w tr rest
                      (<[poly := ODict (<["line_value" := VCoords transformed_coords]> d)]> h)
                | Raise e => (Raise e, h)
                end
              else transform_polygons w tr rest h
          | None => transform_polygons w tr rest h
          end
      | _ => (Raise AttributeError, h)   (* [poly.get] on another object *)
      end
  end.

Definition transform_coordinates (jgw_lines : list string)
    (pixel_coordinates : list point) (polygon_areas : loc) (h : gmap loc object)
  : result (list (float * float) * loc) * gmap loc object :=
  match parse_jgw jgw_lines with
  | Raise e => (Raise e, h)
  | Ok w =>
      let tr := make_transformer w in
      match h !! polygon_areas with
      | Some (OList polys) =>
          match transform_polygons w tr polys h with
          | (Raise e, h') => (Raise e, h')
          | (Ok _, h') =>
              match forM (transform_point w tr) pixel_coordinates with
              | Raise e => (Raise e, h')
              | Ok geographic_coords => (Ok (geographic_coords, polygon_areas), h')
              end
          end
      | Some (ODict d) =>
          (* iterating a dictionary yields its keys, and a text has no [get] *)
          if decide (d = ∅) then
            match forM (transform_point w tr) pixel_coordinates with
            | Raise e => (Raise e, h)
            | Ok geographic_coords => (Ok (geographic_coords, polygon_areas), h)
            end
          else (Raise AttributeError, h)
      | None => (Raise TypeError, h)   (* no such object *)
      end
  end.

End CoordinateService.

(** The points a float operation accepts: integer coordinates in the
    binary64 range. *)
Definition point_finite (p : point) : bool :=
  is_ok (float_of_int p.1) && is_ok (float_of_int p.2).

(** What the detection step stores under ['line_value']: nothing, [False],
    or the pixel segments of a path. *)
Definition line_value_ok (d : gmap string value) : Prop :=
  match d !! "line_value" with
  | None | Some VFalse => True
  | Some (VLines l) => forallb point_finite (collect_points l) = true
  | Some _ => False
  end.

(** How one property dictionary changes: a non-empty list of segments under
    ['line_value'] is replaced by the transformed endpoints, in order, each
    by the rule for points; anything else leaves the dictionary as it is. *)
Definition transformed_entry (w : world_file) (tr : option transformer)
    (d d' : gmap string value) : Prop :=
  match d !! "line_value" with
  | Some (VLines (seg :: l)) =>
      ∃ coords,
        forM (transform_point w tr) (collect_points (seg :: l)) = Ok coords
        ∧ d' = <["line_value" := VCoords coords]> d
  | _ => d' = d
  end.

(** Nothing is left to transform under ['line_value']: no segments, or the
    coordinates an earlier call stored. *)
Definition line_value_settled (d : gmap string value) : Prop :=
  match d !! "line_value" with
  | None | Some VFalse | Some (VLines []) | Some (VCoords _) => True
  | _ => False
  end.

(** Some entry of the list holds a path (a non-empty list of segments), or
    the coordinates of one. *)
Definition holds_path (h : gmap loc object) (polys : list loc) : Prop :=
  ∃ poly d seg l,
    poly ∈ polys ∧ h !! poly = Some (ODict d)
    ∧ d !! "line_value" = Some (VLines (seg :: l)).

Definition holds_coords (h : gmap loc object) (polys : list loc) : Prop :=
  ∃ poly d c cs,
    poly ∈ polys ∧ h !! poly = Some (ODict d)
    ∧ d !! "line_value" = Some (VCoords (c :: cs)).

(** A reader for the texts of the example world files, standing for
    [float(line.strip())] on exactly these lines. *)
Definition newline : string := String (Ascii.ascii_of_nat 10) EmptyString.

Definition example_strip (s : string) : string :=
  match String.index 0 newline s with
  | Some n => String.substring 0 n s
  | None => s
  end.

Definition example_float (s : string) : option float :=
  if String.eqb s "0.0002" then Some 0.0002%float
  else if String.eqb s "-0.0002" then Some (-0.0002)%float
  else if String.eqb s "0" then Some 0%float
  else if String.eqb s "13.4" then Some 13.4%float
  else if String.eqb s "52.5" then Some 52.5%float
  else if String.eqb s "1" then Some 1%float
  else if String.eqb s "-1" then Some (-1)%float
  else if String.eqb s "650000" then Some 650000%float
  else if String.eqb s "5800000" then Some 5800000%float
  else None.

(** The world file of the scenario, one coefficient a line. *)
Definition scenario_lines : list string :=
  ["0.0002" +:+ newline; "0" +:+ newline; "0" +:+ newline;
   "-0.0002" +:+ newline; "13.4" +:+ newline; "52.5" +:+ newline].

Definition scenario_world_file : world_file :=
  WorldFile 0.0002 0 0 (-0.0002) 13.4 52.5.

(** A world file in UTM metres, inside the envelope, and a function
    standing for the transformer built for it. *)
Definition utm_lines : list string :=
  ["1" +:+ newline; "0" +:+ newline; "0" +:+ newline;
   "-1" +:+ newline; "650000" +:+ newline; "5800000" +:+ newline].

Definition utm_world_file : world_file := WorldFile 1 0 0 (-1) 650000 5800000.

Definition example_transformer : transformer :=
  fun x y => ((x / 100000)%float, (y / 100000)%float).

(** A heap with the list of two property dictionaries: a tree, whose
    ['line_value'] is [False], and a path of two segments. *)
Definition example_heap : gmap loc object :=
  {[ 1%positive := OList [2%positive; 3%positive];
     2%positive := ODict {[ "Tree" := VStr "12.5 m2"; "line_value" := VFalse ]};
     3%positive := ODict {[ "path" := VStr "0.0 m2";
                            "line_value" := VLines [((0,0),(10,0));
                                                    ((10,0),(20,5))] ]} ]}.

(** ** World-file synthesis ([CoordinateService.create_jgw_from_tiff]) *)

(** What the function asks of a CRS object: [crs.to_epsg()], which may
    raise or find no code, and [str(crs)]. *)
Record crs_info : Type := CrsInfo {
  crs_to_epsg : result (option Z);
  crs_text : string
}.

(** The opened raster: [src.transform], whose fields [a, d, b, e, c, f] are
    kept in a [world_file], and [src.crs] ([None]: a missing or empty CRS,
    which is falsy). *)
Record raster : Type := Raster {
  r_transform : world_file;
  r_crs : option crs_info
}.

(** [needle in s]. *)
Definition is_substring (needle s : string) : bool :=
  match String.index 0 needle s with
  | Some _ => true
  | None => false
  end.

Section CreateJgw.

(** [str.lower], the text of a float in an f-string, and
    [Transformer.from_crs(crs, "EPSG:4326", always_xy=True)], which may
    raise. *)
Variable lower : string -> string.
Variable format_float : float -> string.
Variable to_wgs84 : crs_info -> result transformer.

(** [is_wgs84] after the detection block; the bare [except] turns any
    failure of [to_epsg] into the test on the text. *)
Definition is_wgs84 (crs : option crs_info) : bool :=
  match crs with
  | None => false
  | Some c =>
      match crs_to_epsg c with
      | Ok crs_epsg => bool_decide (crs_epsg = Some 4326)
      | Raise _ =>
          let crs_string := lower (crs_text c) in
          is_substring "epsg:4326" crs_string
          || is_substring "wgs84" crs_string
      end
  end.

(** [transform_a, transform_d, transform_b, transform_e, transform_c,
    transform_f]. *)
Definition jgw_coefficients (r : raster) : result world_file :=
  let transform := r_transform r in
  match r_crs r with
  | Some crs =>
      if negb (is_wgs84 (Some crs)) then
        tr ← to_wgs84 crs;
        let origin := tr (wf_C transform) (wf_F transform) in
        let right :=
          tr (wf_C transform + wf_A transform)%float (wf_F transform) in
        let bottom :=
          tr (wf_C transform) (wf_F transform + wf_E transform)%float in
        let pixel_width_deg := (right.1 - origin.1)%float in
        let pixel_height_deg := (bottom.2 - origin.2)%float in
        Ok (WorldFile pixel_width_deg 0 0 pixel_height_deg origin.1 origin.2)
      else Ok transform
  | None => Ok transform
  end.

(** The six lines written to the [.jgw] file, as [readlines] returns them
    (the text of a float holds no line break). *)
Definition create_jgw_from_tiff (r : raster) : result (list string) :=
  w ← jgw_coefficients r;
  Ok [format_float (wf_A w) +:+ newline;
      format_float (wf_D w) +:+ newline;
      format_float (wf_B w) +:+ newline;
      format_float (wf_E w) +:+ newline;
      format_float (wf_C w) +:+ newline;
      format_float (wf_F w) +:+ newline].

End CreateJgw.

(** The texts of the scenario's coefficients, inverse to [example_float]. *)
Definition example_format (x : float) : string :=
  if PrimFloat.eqb x 0.0002 then "0.0002"
  else if PrimFloat.eqb x (-0.0002) then "-0.0002"
  else if PrimFloat.eqb x 0 then "0"
  else if PrimFloat.eqb x 13.4 then "13.4"
  else if PrimFloat.eqb x 52.5 then "52.5"
  else "nan".

(** ** GeoJSON features ([GeoJsonService.generate_geojson]) *)

(** A property dictionary with its keys in insertion order. *)
Definition odict : Type := list (string * value).

(** [poly.get(key)]. *)
Fixpoint get (poly : odict) (key : string) : option value :=
  match poly with
  | [] => None
  | (k, v) :: rest => if String.eqb k key then Some v else get rest key
  end.

Inductive geometry : Type :=
  | Point (coordinates : float * float)
  | LineString (coordinates : value).

(** A feature: its geometry and the properties ["name"], ["description"],
    ["polygon_area"] and ["id"]. *)
Record feature : Type := Feature {
  f_geometry : geometry;
  f_name : string;
  f_description : string;
  f_polygon_area : value;
  f_id : Z
}.

Definition create_point_feature (coordinates : float * float)
    (name description : string) (polygon_area : value) (feature_id : Z)
  : feature :=
  Feature (Point coordinates) name description polygon_area feature_id.

Definition create_linestring_feature (coordinates : value)
    (name description : string) (polygon_area : value) (feature_id : Z)
  : feature :=
  Feature (LineString coordinates) name description polygon_area feature_id.

(** The same feature with its id moved by [k]. *)
Definition renumber (k : Z) (ft : feature) : feature :=
  Feature (f_geometry ft) (f_name ft) (f_description ft) (f_polygon_area ft)
    (f_id ft + k).

Section GeoJson.

(** [str.lower]. *)
Variable lower : string -> string.

(** ['path' in detection_name.lower()]. *)
Definition is_path (detection_name : string) : bool :=
  is_substring "path" (lower detection_name).

(** The body of [for poly in polygon_areas], the same in both branches, on
    [features] and [feature_id]; [list(poly.keys())[0]] raises on an empty
    dictionary. *)
Definition add_line (image_filename : string) (st : list feature * Z)
    (poly : odict) : result (list feature * Z) :=
  match poly with
  | [] => Raise IndexError
  | (detection_name, area_value) :: _ =>
      if is_path detection_name then
        let line_coords := default (VLines []) (get poly "line_value") in
        if truthy line_coords && is_not_False line_coords then
          let feature_id := st.2 + 1 in
          Ok (st.1 ++ [create_linestring_feature line_coords detection_name
                         image_filename area_value feature_id],
              feature_id)
        else Ok st
      else Ok st
  end.

(** The body of [for idx, coords in enumerate(center_coordinates)]; a
    missing or empty entry is caught and replaced by the default name and
    area. *)
Definition add_point (polygon_areas : list odict) (image_filename : string)
    (st : list feature * Z) (entry : nat * (float * float))
  : list feature * Z :=
  let named :=
    match polygon_areas !! entry.1 with
    | Some ((detection_name, area_value) :: _) => (detection_name, area_value)
    | _ => ("unhealthy-tree", VStr "0.0 m²")
    end in
  if negb (is_path named.1) then
    let feature_id := st.2 + 1 in
    (st.1 ++ [create_point_feature entry.2 named.1 image_filename named.2
                feature_id],
     feature_id)
  else st.

Definition generate_geojson (center_coordinates : list (float * float))
    (polygon_areas : list odict) (image_filename model_type : string)
  : result (list feature) :=
  if String.eqb model_type "winter" then
    st ← foldM (add_line image_filename) ([], 0) polygon_areas;
    Ok st.1
  else
    let st := foldl (add_point polygon_areas image_filename) ([], 0)
                (imap pair center_coordinates) in
    st ← foldM (add_line image_filename) st polygon_areas;
    Ok st.1.

End GeoJson.

(** A point feature of one of the given centres, not named as a path, and a
    line feature of a path with coordinates. *)
Definition is_point_feature (lower : string -> string)
    (image_filename : string) (ft : feature) : Prop :=
  (∃ coords, f_geometry ft = Point coords)
  ∧ is_path lower (f_name ft) = false
  ∧ f_description ft = image_filename.

Definition is_line_feature (lower : string -> string)
    (image_filename : string) (ft : feature) : Prop :=
  (∃ line_coords, f_geometry ft = LineString line_coords
                  ∧ truthy line_coords = true
                  ∧ is_not_False line_coords = true)
  ∧ is_path lower (f_name ft) = true
  ∧ f_description ft = image_filename.

(** Ids counted from 1. *)
Definition numbered_from_1 (features : list feature) : Prop :=
  f_id <$> features = Z.of_nat <$> seq 1 (length features).

(** Lower-casing of the names of the examples, which are in lower case. *)
Definition example_lower (s : string) : string := s.

Definition example_polygon_areas : list odict :=
  [[("tree", VStr "12.5 m²"); ("line_value", VFalse)];
   [("path", VStr "0.0 m²");
    ("line_value", VCoords [(13.4, 52.5); (13.42, 52.49)]%float)]].

(** ** File names ([allowed_file], [validate_file_extension]) *)

(** The split at the last full stop, if there is one. *)
Fixpoint split_at_last_dot (s : string) : option (string * string) :=
  match s with
  | EmptyString => None
  | String c rest =>
      match split_at_last_dot rest with
      | Some (before, after) => Some (String c before, after)
      | None => if Ascii.eqb c "."%char then Some (EmptyString, rest) else None
      end
  end.

(** [s.rsplit('.', 1)]. *)
Definition rsplit (s : string) : list string :=
  match split_at_last_dot s with
  | Some (before, after) => [before; after]
  | None => [s]
  end.

(** ['.' in filename and filename.rsplit('.', 1)[1].lower() in
    allowed_extensions]; the body of [validate_file_extension] is the
    same. *)
Definition allowed_file (lower : string -> string) (filename : string)
    (allowed_extensions : gset string) : result bool :=
  if is_substring "." filename then
    extension ← index (rsplit filename !! 1%nat);
    Ok (bool_decide (lower extension ∈ allowed_extensions))
  else Ok false.

(** ** Shaping a group into a path ([PredictionService._process_detections]) *)

(** The order of the sort key [(point[0], point[1])]: tuples compare
    lexicographically. *)
Definition key_le (p q : point) : Prop :=
  p.1 < q.1 ∨ (p.1 = q.1 ∧ p.2 <= q.2).

#[export] Instance key_le_dec p q : Decision (key_le p q).
Proof. unfold key_le. apply _. Defined.

(** [sorted(points, key=lambda point: (point[0], point[1]))].  The key of a
    point is the point itself and the order is total and antisymmetric, so
    the sorted list is determined by the input and the stability of
    Python's sort plays no role; merge sort computes that list. *)
Definition sort_points (points : list point) : list point :=
  merge_sort key_le points.

(** The loop that turns the final points into line segments:
    [for i in range(len(l) - 1): line_list.append((l[i], l[i + 1]))]. *)
Definition line_list (smooth_points : list point) : result (list segment) :=
  forM (fun i =>
          start ← index (smooth_points !! i);
          end_ ← index (smooth_points !! (i + 1)%nat);
          Ok (start, end_))
       (seq 0 (length smooth_points - 1)).

(** A segment with its two endpoints exchanged. *)
Definition flip (seg : segment) : segment := (seg.2, seg.1).

(** * Properties *)

(** Closed facts are settled by evaluation. *)
Ltac by_evaluation := vm_compute; reflexivity.

(** ** Binary64 order *)

Lemma SFltb_trans x y z :
  SFltb x y = true -> SFltb y z = true -> SFltb x z = true.
Proof.
  unfold SFltb, SFcompare.
  destruct x as [[]|[]| |[] mx ex], y as [[]|[]| |[] my ey],
           z as [[]|[]| |[] mz ez];
    try (intros; (reflexivity || discriminate)).
  all: rewrite ?Pos.compare_cont_spec; simpl Pos.switch_Eq.
  all: destruct (Z.compare_spec ex ey), (Z.compare_spec ey ez),
         (Z.compare_spec ex ez);
       try (intros; (reflexivity || discriminate || lia)).
  all: destruct (Pos.compare_spec mx my), (Pos.compare_spec my mz),
         (Pos.compare_spec mx mz);
       simpl; try (intros; (reflexivity || discriminate || lia)).
Qed.

Lemma float_ltb_trans (x y z : float) :
  PrimFloat.ltb x y = true -> PrimFloat.ltb y z = true ->
  PrimFloat.ltb x z = true.
Proof. rewrite !ltb_spec. apply SFltb_trans. Qed.

(** ** Conversion of integers *)

Lemma digits2_pos_bounds m :
  2 ^ (Zpos (digits2_pos m) - 1) <= Zpos m < 2 ^ Zpos (digits2_pos m).
Proof.
  induction m as [m IH|m IH| ]; simpl digits2_pos.
  - rewrite Pos2Z.inj_succ, Z.pow_succ_r by lia.
    replace (Z.succ (Zpos (digits2_pos m)) - 1)
      with (Z.succ (Zpos (digits2_pos m) - 1)) by lia.
    rewrite Z.pow_succ_r by lia. lia.
  - rewrite Pos2Z.inj_succ, Z.pow_succ_r by lia.
    replace (Z.succ (Zpos (digits2_pos m)) - 1)
      with (Z.succ (Zpos (digits2_pos m) - 1)) by lia.
    rewrite Z.pow_succ_r by lia. lia.
  - simpl. lia.
Qed.

Lemma digits2_pos_iter_xO m d :
  digits2_pos (Pos.iter xO m d) = (digits2_pos m + d)%positive.
Proof.
  induction d as [ | d IH] using Pos.peano_ind.
  - simpl. lia.
  - rewrite Pos.iter_succ. simpl. rewrite IH. lia.
Qed.

(** A mantissa already in canonical position is not rounded. *)
Lemma binary_round_aux_exact sx m e :
  fexp prec emax (Zpos (digits2_pos m) + e) = e -> e <= emax - prec ->
  binary_round_aux prec emax sx (Zpos m) e loc_Exact = S754_finite sx m e.
Proof.
  intros Hf He. unfold binary_round_aux, shr_fexp. simpl Zdigits2.
  rewrite Hf, Z.sub_diag. simpl. rewrite Hf, Z.sub_diag. simpl.
  apply Z.leb_le in He. by rewrite He.
Qed.

Lemma binary_round_small sx m :
  Zpos m < 2 ^ 53 ->
  ∃ m' e', binary_round prec emax sx m 0 = S754_finite sx m' e'.
Proof.
  intros Hm.
  pose proof (digits2_pos_bounds m) as [Hlo Hhi].
  assert (Zpos (digits2_pos m) <= 53) as Hd.
  { destruct (Z.le_gt_cases (Zpos (digits2_pos m)) 53) as [?|Hgt]; [done|].
    assert (2 ^ 53 <= 2 ^ (Zpos (digits2_pos m) - 1)); [|lia].
    apply Z.pow_le_mono_r; lia. }
  unfold binary_round, shl_align.
  assert (fexp prec emax (Zpos (digits2_pos m) + 0)
          = Zpos (digits2_pos m) - 53) as ->.
  { unfold fexp, emin, prec, emax. lia. }
  destruct (Zpos (digits2_pos m) - 53 - 0) as [ | p|d] eqn:Ed; try lia.
  - eexists _, _. apply binary_round_aux_exact.
    + unfold fexp, emin, prec, emax. lia.
    + unfold emax, prec. lia.
  - eexists _, _. apply binary_round_aux_exact.
    + rewrite digits2_pos_iter_xO. unfold fexp, emin, prec, emax. lia.
    + unfold emax, prec. lia.
Qed.

(** No [OverflowError] below 2^53. *)
Lemma float_of_int_small n :
  Z.abs n < 2 ^ 53 -> is_ok (float_of_int n) = true.
Proof.
  intros Hn. unfold float_of_int, binary_normalize.
  destruct n as [ | m|m]; [done| |].
  - destruct (binary_round_small false m) as (m' & e' & ->); [lia|done].
  - destruct (binary_round_small true m) as (m' & e' & ->); [lia|done].
Qed.

Lemma sum_squares_small p q :
  in_pixel_range p -> in_pixel_range q -> Z.abs (sum_squares p q) < 2 ^ 53.
Proof.
  unfold in_pixel_range, sum_squares. intros [Hp1 Hp2] [Hq1 Hq2].
  assert (∀ a b, Z.abs a < 2 ^ 25 -> Z.abs b < 2 ^ 25 ->
                 0 <= (a - b) ^ 2 < 2 ^ 52) as Hsq.
  { intros a b Ha Hb. rewrite Z.pow_2_r.
    assert (Z.abs (a - b) < 2 ^ 26) as Hab by lia.
    change (2 ^ 52) with (2 ^ 26 * 2 ^ 26). nia. }
  pose proof (Hsq _ _ Hp1 Hq1). pose proof (Hsq _ _ Hp2 Hq2).
  change (2 ^ 53) with (2 ^ 52 + 2 ^ 52). lia.
Qed.

Lemma distance_in_pixel_range p q :
  in_pixel_range p -> in_pixel_range q -> is_ok (distance p q) = true.
Proof.
  intros Hp Hq. unfold distance.
  pose proof (float_of_int_small _ (sum_squares_small p q Hp Hq)) as H.
  by destruct (float_of_int (sum_squares p q)).
Qed.

(** Segments with pixel coordinates are inputs of [find_groups] on which
    no distance computation raises. *)
Lemma distances_finite_in_pixel_range segments :
  Forall (fun seg => in_pixel_range seg.1 ∧ in_pixel_range seg.2) segments ->
  distances_finite segments = true.
Proof.
  rewrite Forall_forall. intros H. unfold distances_finite.
  apply forallb_forall. intros a Ha%list_elem_of_In.
  apply forallb_forall. intros b Hb%list_elem_of_In.
  destruct (H a Ha), (H b Hb). unfold endpoint_distances_finite.
  by rewrite !distance_in_pixel_range.
Qed.

Lemma directions_finite_in_pixel_range points :
  Forall in_pixel_range points -> directions_finite points = true.
Proof.
  rewrite Forall_forall. intros H. unfold directions_finite.
  apply forallb_forall. intros p Hp%list_elem_of_In.
  apply forallb_forall. intros q Hq%list_elem_of_In.
  destruct (H p Hp) as [Hp1 Hp2], (H q Hq) as [Hq1 Hq2].
  rewrite !float_of_int_small; [done|lia..].
Qed.

(** ** Proximity test *)

Lemma sum_squares_sym p q : sum_squares p q = sum_squares q p.
Proof. unfold sum_squares. lia. Qed.

Lemma distance_sym p q : distance p q = distance q p.
Proof. unfold distance. by rewrite sum_squares_sym. Qed.

Lemma closer_sym p q t : closer p q t = closer q p t.
Proof. unfold closer. by rewrite distance_sym. Qed.

Lemma closer_ok p q t :
  is_ok (distance p q) = true ->
  ∃ d, distance p q = Ok d ∧ closer p q t = Ok (PrimFloat.ltb d t).
Proof.
  unfold closer. destruct (distance p q) as [d|e]; [|done].
  intros _. by exists d.
Qed.

Lemma lazy_or_ok a b x y :
  a = Ok x -> b = Ok y -> lazy_or a b = Ok (x || y).
Proof. intros -> ->. by destruct x. Qed.

(** Without overflow the test is the disjunction of the four comparisons. *)
Lemma are_connected_or_close_ok seg1 seg2 t :
  endpoint_distances_finite seg1 seg2 = true ->
  ∃ d11 d12 d21 d22,
    distance seg1.1 seg2.1 = Ok d11 ∧ distance seg1.1 seg2.2 = Ok d12 ∧
    distance seg1.2 seg2.1 = Ok d21 ∧ distance seg1.2 seg2.2 = Ok d22 ∧
    are_connected_or_close seg1 seg2 t
    = Ok (PrimFloat.ltb d11 t || (PrimFloat.ltb d12 t
          || (PrimFloat.ltb d21 t || PrimFloat.ltb d22 t))).
Proof.
  unfold endpoint_distances_finite. rewrite !andb_true_iff.
  intros [[[H11 H12] H21] H22].
  destruct (closer_ok _ _ t H11) as (d11 & D11 & E11).
  destruct (closer_ok _ _ t H12) as (d12 & D12 & E12).
  destruct (closer_ok _ _ t H21) as (d21 & D21 & E21).
  destruct (closer_ok _ _ t H22) as (d22 & D22 & E22).
  exists d11, d12, d21, d22. split_and!; [done..|].
  unfold are_connected_or_close.
  repeat (apply lazy_or_ok; [eassumption|]). eassumption.
Qed.

Lemma distances_finite_spec segments a b :
  distances_finite segments = true -> a ∈ segments -> b ∈ segments ->
  endpoint_distances_finite a b = true.
Proof.
  unfold distances_finite. rewrite forallb_forall. intros H Ha Hb.
  apply list_elem_of_In in Ha, Hb.
  specialize (H a Ha). rewrite forallb_forall in H. by apply H.
Qed.

(** ** Breadth-first search *)

Lemma size_list_to_set_le (l : list segment) :
  (size (list_to_set l : gset segment) <= length l)%nat.
Proof.
  induction l as [ | a l IH].
  - by rewrite list_to_set_nil, size_empty.
  - rewrite list_to_set_cons, size_union_alt, size_singleton. simpl.
    assert (size (list_to_set l ∖ {[a]} : gset segment)
            <= size (list_to_set l : gset segment))%nat
      by (apply subseteq_size; set_solver).
    lia.
Qed.

Lemma bfs_state_eq v1 g1 q1 v2 g2 q2 :
  v1 = v2 -> g1 = g2 -> q1 = q2 ->
  Ok (BfsState v1 g1 q1) = Ok (BfsState v2 g2 q2).
Proof. by intros -> -> ->. Qed.

Section Clustering.

Variable threshold : float.
Variable segments : list segment.
Hypothesis Hfinite : distances_finite segments = true.


Lemma test_defined a b :
  a ∈ segments -> b ∈ segments ->
  ∃ c, are_connected_or_close a b threshold = Ok c.
Proof.
  intros Ha Hb.
  pose proof (distances_finite_spec _ _ _ Hfinite Ha Hb) as H.
  destruct (are_connected_or_close_ok a b threshold H)
    as (? & ? & ? & ? & _ & _ & _ & _ & E).
  eauto.
Qed.

Lemma adjacent_sym a b :
  a ∈ segments -> b ∈ segments ->
  adjacent threshold a b -> adjacent threshold b a.
Proof.
  intros Ha Hb. unfold adjacent.
  pose proof (distances_finite_spec _ _ _ Hfinite Ha Hb) as H.
  pose proof (distances_finite_spec _ _ _ Hfinite Hb Ha) as G.
  destruct (are_connected_or_close_ok a b threshold H)
    as (c1 & c2 & c3 & c4 & E1 & E2 & E3 & E4 & ->).
  destruct (are_connected_or_close_ok b a threshold G)
    as (d1 & d2 & d3 & d4 & F1 & F2 & F3 & F4 & ->).
  rewrite distance_sym in F1, F2, F3, F4.
  assert (d1 = c1) as -> by congruence.
  assert (d2 = c3) as -> by congruence.
  assert (d3 = c2) as -> by congruence.
  assert (d4 = c4) as -> by congruence.
  intros [= E]. f_equal.
  destruct (PrimFloat.ltb c1 threshold), (PrimFloat.ltb c2 threshold),
    (PrimFloat.ltb c3 threshold), (PrimFloat.ltb c4 threshold); done.
Qed.

Lemma linked_in a b : a ∈ segments -> linked segments threshold a b -> b ∈ segments.
Proof. intros Ha H. induction H as [ | x y z [Hy _] _ IH]; auto. Qed.

Lemma linked_sym a b : a ∈ segments -> linked segments threshold a b -> linked segments threshold b a.
Proof.
  intros Ha H. revert b H. apply rtc_ind_r; [apply rtc_refl|].
  intros y z Hay [Hz Hyz] IH.
  pose proof (linked_in a y Ha Hay) as Hy.
  eapply rtc_l; [|exact IH]. split; [done|].
  by apply adjacent_sym.
Qed.

(** The inner loop adds, once each and in list order, the unvisited
    segments of [l] that pass the test with [cur]. *)
Lemma scan_spec cur l st :
  cur ∈ segments -> l ⊆ segments ->
  ∃ new,
    scan threshold cur l st
    = Ok {| visited := visited st ∪ list_to_set new;
            group := group st ++ new;
            queue := queue st ++ new |}
    ∧ NoDup new
    ∧ ∀ x, x ∈ new ↔ x ∈ l ∧ (x ∉ visited st) ∧ adjacent threshold cur x.
Proof.
  intros Hcur. revert st. induction l as [ | seg rest IH]; intros st Hl.
  - exists []. simpl. split_and!.
    + destruct st. simpl.
      apply bfs_state_eq; [set_solver|by rewrite app_nil_r..].
    + constructor.
    + set_solver.
  - assert (seg ∈ segments) as Hseg by set_solver.
    assert (rest ⊆ segments) as Hrest by set_solver.
    simpl. destruct (decide (seg ∈ visited st)) as [Hv|Hv].
    + destruct (IH st Hrest) as (new & E & Hnd & Hnew).
      exists new. split_and!; [done..|].
      intros x. rewrite Hnew. set_solver.
    + destruct (test_defined cur seg Hcur Hseg) as [c Ec].
      rewrite Ec. simpl. destruct c.
      * destruct (IH (visit seg st) Hrest) as (new & E & Hnd & Hnew).
        exists (seg :: new). split_and!.
        -- rewrite E. simpl. apply bfs_state_eq.
           ++ set_solver.
           ++ by rewrite <- app_assoc.
           ++ by rewrite <- app_assoc.
        -- constructor; [|done]. rewrite Hnew. simpl. set_solver.
        -- intros x. rewrite elem_of_cons, Hnew. simpl.
           destruct (decide (x = seg)) as [->|Hne]; [unfold adjacent|];
             set_solver.
      * destruct (IH st Hrest) as (new & E & Hnd & Hnew).
        exists new. split_and!; [done..|].
        intros x. rewrite Hnew, elem_of_cons.
        split; [tauto|]. intros [[->|?] [? Hadj]]; [|tauto].
        unfold adjacent in Hadj. congruence.
Qed.

Lemma unvisited_scan st (new : list segment) v :
  NoDup new ->
  (∀ x, x ∈ new -> x ∈ segments ∧ x ∉ visited st) ->
  v = visited st ∪ list_to_set new ->
  (size (list_to_set segments ∖ v : gset segment) + length new
   = unvisited segments st)%nat.
Proof.
  intros Hnd Hnew ->. unfold unvisited.
  rewrite <- (size_list_to_set (C:=gset segment) new) by done.
  rewrite <- size_union by set_solver.
  f_equal. apply set_eq. intros x.
  rewrite elem_of_union, !elem_of_difference, elem_of_union,
    !elem_of_list_to_set.
  destruct (decide (x ∈ new)) as [Hx|Hx]; [|tauto].
  destruct (Hnew x Hx). tauto.
Qed.

Lemma drain_spec seen seed fuel st :
  bfs_inv segments threshold seen seed st ->
  (length (queue st) + unvisited segments st <= fuel)%nat ->
  ∃ st', drain fuel threshold segments st = Ok st'
         ∧ bfs_inv segments threshold seen seed st' ∧ queue st' = [].
Proof.
  revert st. induction fuel as [ | fuel IH]; intros st Hinv Hfuel.
  - destruct st as [v g [ | c q]]; simpl in *; [|lia]. eauto.
  - destruct st as [v g [ | cur q]]; simpl in *; [eauto|].
    destruct Hinv as (Hv & Hnd & Hg & Hseed & Hq & Hdone). simpl in *.
    assert (cur ∈ g) as Hcur by set_solver.
    destruct (Hg cur Hcur) as (_ & Hcs & Hlink).
    destruct (scan_spec cur segments (BfsState v g q) Hcs)
      as (new & E & Hnew_nd & Hnew); [done|].
    rewrite E. simpl. simpl in Hnew.
    apply IH.
    + split_and!; simpl.
      * rewrite Hv, list_to_set_app_L. set_solver.
      * apply NoDup_app. split_and!; [done| |done].
        intros x Hx Hx'. apply Hnew in Hx' as (_ & Hx' & _).
        apply Hx'. rewrite Hv. set_solver.
      * intros x [Hx|Hx]%elem_of_app; [by apply Hg|].
        apply Hnew in Hx as (Hxs & Hxv & Hadj). split_and!.
        -- rewrite Hv in Hxv. set_solver.
        -- done.
        -- eapply rtc_r; [exact Hlink|]. by split.
      * set_solver.
      * intros x [Hx|Hx]%elem_of_app; apply elem_of_app; [left|by right].
        apply Hq. by right.
      * intros x y [Hx|Hx]%elem_of_app Hxq Hy Hadj;
          [|exfalso; apply Hxq; set_solver].
        destruct (decide (x = cur)) as [->|Hne].
        -- destruct (decide (y ∈ v)) as [?|Hyv]; [set_solver|].
           apply elem_of_union. right. apply elem_of_list_to_set.
           by apply Hnew.
        -- apply elem_of_union. left. apply (Hdone x y); [done| |done..].
           intros [?|?]%elem_of_cons; [done|]. apply Hxq. set_solver.
    + simpl. rewrite length_app.
      pose proof (unvisited_scan (BfsState v g q) new
                    (v ∪ list_to_set new) Hnew_nd) as Hsize.
      unfold unvisited in *. simpl in *.
      rewrite <- Hsize in Hfuel; [lia| |done].
      intros x Hx. apply Hnew in Hx. tauto.
Qed.

(** When the queue is empty the group is the class of the seed. *)
Lemma drain_component seen seed st :
  seed ∈ segments ->
  closed segments threshold seen ->
  bfs_inv segments threshold seen seed st -> queue st = [] ->
  component segments threshold (group st)
  ∧ closed segments threshold (visited st).
Proof.
  intros Hseed Hclosed (Hv & Hnd & Hg & Hsg & Hq & Hdone) Hempty.
  assert (∀ x y, x ∈ group st -> y ∈ segments ->
            adjacent threshold x y -> y ∈ group st) as Hstep.
  { intros x y Hx Hy Hadj.
    assert (y ∈ visited st) as Hyv.
    { apply (Hdone x y); [done| |done..]. rewrite Hempty. set_solver. }
    rewrite Hv in Hyv. apply elem_of_union in Hyv as [Hys|Hyg].
    - destruct (Hg x Hx) as (Hxs & Hxi & _). exfalso. apply Hxs.
      apply (Hclosed y x); [done..|]. by apply adjacent_sym.
    - by apply elem_of_list_to_set in Hyg. }
  assert (∀ a b, a ∈ group st -> linked segments threshold a b ->
            b ∈ group st) as Hreach.
  { intros a b Ha Hab. induction Hab as [ | x y z [Hy Hxy] _ IH]; [done|].
    apply IH. by apply (Hstep x y). }
  split.
  - split; [intros E; rewrite E in Hsg; set_solver|].
    intros a Ha. destruct (Hg a Ha) as (_ & Has & Hsa). split; [done|].
    intros b. split.
    + intros Hb. destruct (Hg b Hb) as (_ & Hbs & Hsb). split; [done|].
      etrans; [|exact Hsb]. by apply linked_sym.
    + intros [_ Hab]. by apply (Hreach a b).
  - intros x y Hx Hy Hadj. rewrite Hv in Hx |- *.
    apply elem_of_union in Hx as [Hx|Hx].
    + apply elem_of_union. left. by apply (Hclosed x y).
    + apply elem_of_union. right. apply elem_of_list_to_set.
      apply (Hstep x y); [|done..]. by apply elem_of_list_to_set in Hx.
Qed.

Lemma bfs_inv_start seen seed :
  seed ∈ segments -> seed ∉ seen ->
  bfs_inv segments threshold seen seed
    {| visited := seen ∪ {[seed]}; group := [seed]; queue := [seed] |}.
Proof.
  intros Hs Hn. split_and!; simpl.
  - set_solver.
  - apply NoDup_singleton.
  - intros x ->%list_elem_of_singleton. split_and!; [done..|apply rtc_refl].
  - set_solver.
  - done.
  - intros x y Hx Hxq. done.
Qed.

Lemma fuel_start seen seed :
  seed ∈ segments ->
  (1 + size (list_to_set segments ∖ (seen ∪ {[seed]}) : gset segment)
   <= length segments)%nat.
Proof.
  intros Hs.
  pose proof (size_list_to_set_le segments) as Hle.
  assert (size (list_to_set segments ∖ (seen ∪ {[seed]}) : gset segment)
          <= size (list_to_set segments ∖ {[seed]} : gset segment))%nat as H1
    by (apply subseteq_size; set_solver).
  assert (seed ∈ (list_to_set segments : gset segment)) as Hin
    by by apply elem_of_list_to_set.
  rewrite (size_difference _ {[seed]}) in H1
    by by apply singleton_subseteq_l.
  rewrite size_singleton in H1.
  assert (size (list_to_set segments : gset segment) ≠ 0%nat) as H2.
  { intros E%size_empty_inv. rewrite E in Hin. set_solver. }
  lia.
Qed.

(** The outer loop. *)
Lemma collect_spec fuel todo seen groups :
  (length segments <= fuel)%nat ->
  todo ⊆ segments ->
  groups_inv segments threshold seen groups ->
  ∃ seen' groups',
    collect fuel threshold segments todo seen groups = Ok groups'
    ∧ groups_inv segments threshold seen' groups'
    ∧ seen ⊆ seen' ∧ (∀ x, x ∈ todo -> x ∈ seen').
Proof.
  intros Hfuel. revert seen groups.
  induction todo as [ | seg rest IH]; intros seen groups Htodo Hinv.
  - exists seen, groups. simpl. split_and!; [done..|]. set_solver.
  - assert (seg ∈ segments) as Hseg by set_solver.
    assert (rest ⊆ segments) as Hrest by set_solver.
    simpl. destruct (decide (seg ∈ seen)) as [Hin|Hin].
    + destruct (IH seen groups Hrest Hinv) as (s' & g' & E & Hinv' & Hsub & Hall).
      exists s', g'. split_and!; [done..|]. set_solver.
    + destruct Hinv as (Hseen & Hnd & Hclosed & Hcomp).
      pose proof (bfs_inv_start seen seg Hseg Hin) as Hstart.
      destruct (drain_spec seen seg fuel _ Hstart) as (st & E & Hst & Hq).
      { simpl. unfold unvisited. simpl.
        pose proof (fuel_start seen seg Hseg). lia. }
      rewrite E. simpl.
      destruct (drain_component seen seg st Hseg Hclosed Hst Hq)
        as (Hc & Hcl).
      destruct Hst as (Hv & Hgnd & Hg & Hsg & _).
      destruct (IH (visited st) (groups ++ [group st]) Hrest)
        as (s' & g' & E' & Hinv' & Hsub & Hall).
      { split_and!.
        - rewrite Hv, Hseen, concat_app, list_to_set_app_L. simpl.
          by rewrite app_nil_r.
        - rewrite concat_app. simpl. rewrite app_nil_r.
          apply NoDup_app. split_and!; [done| |done].
          intros x Hx Hx'. destruct (Hg x Hx') as (Hxs & _).
          apply Hxs. rewrite Hseen. by apply elem_of_list_to_set.
        - done.
        - apply Forall_app. split; [done|]. by constructor. }
      exists s', g'. split_and!; [done..| |].
      * rewrite Hv in Hsub. set_solver.
      * intros x [->|Hx]%elem_of_cons; [|by apply Hall].
        apply Hsub. rewrite Hv. apply elem_of_union. right.
        by apply elem_of_list_to_set.
Qed.

End Clustering.

Lemma elem_of_concat {A : Type} (x : A) (ls : list (list A)) :
  x ∈ concat ls ↔ ∃ l, l ∈ ls ∧ x ∈ l.
Proof.
  induction ls as [ | l ls IH]; simpl.
  - set_solver.
  - rewrite elem_of_app, IH. set_solver.
Qed.

Lemma NoDup_concat_unique {A : Type} (ls : list (list A)) i j l l' x :
  NoDup (concat ls) -> ls !! i = Some l -> ls !! j = Some l' ->
  x ∈ l -> x ∈ l' -> i = j.
Proof.
  revert i j. induction ls as [ | k ls IH]; intros i j Hnd Hi Hj Hx Hx';
    [done|].
  simpl in Hnd. apply NoDup_app in Hnd as (_ & Hdisj & Hnd).
  destruct i as [ | i], j as [ | j]; simpl in *.
  - done.
  - injection Hi as ->. exfalso. apply (Hdisj x Hx).
    apply elem_of_concat. exists l'. split; [|done].
    by eapply list_elem_of_lookup_2.
  - injection Hj as ->. exfalso. apply (Hdisj x Hx').
    apply elem_of_concat. exists l. split; [|done].
    by eapply list_elem_of_lookup_2.
  - f_equal. by apply IH.
Qed.

(** The search returns, and returns the classes of [linked]. *)
Lemma find_groups_spec segments threshold :
  distances_finite segments = true ->
  ∃ groups,
    find_groups segments threshold = Ok groups
    ∧ NoDup (concat groups)
    ∧ (∀ s, s ∈ concat groups ↔ s ∈ segments)
    ∧ Forall (component segments threshold) groups.
Proof.
  intros Hfinite.
  destruct (collect_spec threshold segments Hfinite (length segments)
              segments ∅ []) as (seen & groups & E & Hinv & _ & Hall).
  - done.
  - done.
  - split_and!; [done|constructor|by intros x y ?%not_elem_of_empty|constructor].
  - destruct Hinv as (Hseen & Hnd & _ & Hcomp).
    exists groups. split_and!; [done..| |done].
    intros s. split.
    + intros (g & Hg & Hs)%elem_of_concat.
      rewrite Forall_forall in Hcomp. by apply (Hcomp g Hg).
    + intros Hs%Hall. rewrite Hseen in Hs. by apply elem_of_list_to_set in Hs.
Qed.

Lemma find_groups_partitions segments threshold groups :
  NoDup (concat groups) ->
  (∀ s, s ∈ concat groups ↔ s ∈ segments) ->
  Forall (component segments threshold) groups ->
  partitions segments groups.
Proof.
  intros Hnd Hall Hcomp. rewrite Forall_forall in Hcomp. split.
  - intros s (g & Hg & Hs)%Hall%elem_of_concat.
    apply list_elem_of_lookup in Hg as [i Hi].
    exists i, g. split_and!; [done..|].
    intros j g' Hj Hs'. by eapply (NoDup_concat_unique groups j i).
  - intros g Hg. split_and!.
    + apply list_elem_of_lookup in Hg as [i Hi].
      rewrite <- (take_drop_middle groups i g Hi), concat_app in Hnd.
      simpl in Hnd. apply NoDup_app in Hnd as (_ & _ & Hnd).
      by apply NoDup_app in Hnd as (Hnd & _).
    + by apply (Hcomp g Hg).
    + intros x Hx. by apply (Hcomp g Hg).
Qed.

Lemma find_groups_same_group segments threshold groups a b :
  (∀ s, s ∈ concat groups ↔ s ∈ segments) ->
  Forall (component segments threshold) groups ->
  a ∈ segments -> b ∈ segments ->
  same_group groups a b ↔ linked segments threshold a b.
Proof.
  intros Hall Hcomp Ha Hb. rewrite Forall_forall in Hcomp. split.
  - intros (g & Hg & Hag & Hbg).
    destruct (Hcomp g Hg) as (_ & Hc). destruct (Hc a Hag) as (_ & Hc').
    by apply Hc'.
  - intros Hab. apply Hall, elem_of_concat in Ha as (g & Hg & Hag).
    exists g. split_and!; [done..|].
    destruct (Hcomp g Hg) as (_ & Hc). destruct (Hc a Hag) as (_ & Hc').
    by apply Hc'.
Qed.

(** ** Raising the threshold *)

Lemma closer_mono p q t t' :
  PrimFloat.ltb t t' = true ->
  (closer p q t = Ok true -> closer p q t' = Ok true)
  ∧ is_ok (closer p q t) = is_ok (closer p q t').
Proof.
  intros Ht. unfold closer. destruct (distance p q) as [d|e]; simpl; [|done].
  split; [|done]. intros [= Hd]. f_equal. by eapply float_ltb_trans.
Qed.

Lemma lazy_or_mono a a' b b' :
  (a = Ok true -> a' = Ok true) -> is_ok a = is_ok a' ->
  (b = Ok true -> b' = Ok true) ->
  lazy_or a b = Ok true -> lazy_or a' b' = Ok true.
Proof.
  destruct a as [[]|], a' as [[]|]; simpl; intros Ha Hok Hb H;
    try done; try (by apply Hb); try (by specialize (Ha eq_refl)).
Qed.

Lemma adjacent_mono t t' a b :
  PrimFloat.ltb t t' = true -> adjacent t a b -> adjacent t' a b.
Proof.
  intros Ht. unfold adjacent, are_connected_or_close.
  repeat (apply lazy_or_mono; [by apply closer_mono..|]).
  by apply closer_mono.
Qed.

Lemma linked_mono segments t t' a b :
  PrimFloat.ltb t t' = true ->
  linked segments t a b -> linked segments t' a b.
Proof.
  intros Ht H. induction H as [ | x y z [Hy Hxy] _ IH]; [apply rtc_refl|].
  eapply rtc_l; [|exact IH]. split; [done|]. by eapply adjacent_mono.
Qed.

(** ** Claims on [find_groups] and [are_connected_or_close] *)

(** C1. For every list of segments whose endpoint distances are in the
    floating-point range and every threshold, [find_groups] returns groups
    that partition the input (every input segment, taken by value, lies in
    exactly one group and once in it), and two input segments share a group
    exactly when a chain of pairwise [are_connected_or_close] tests through
    input segments links them. *)
Theorem find_groups_partition_by_chains segments threshold :
  distances_finite segments = true ->
  ∃ groups,
    find_groups segments threshold = Ok groups
    ∧ partitions segments groups
    ∧ ∀ a b, a ∈ segments -> b ∈ segments ->
        same_group groups a b ↔ linked segments threshold a b.
Proof.
  intros Hfinite.
  destruct (find_groups_spec segments threshold Hfinite)
    as (groups & E & Hnd & Hall & Hcomp).
  exists groups. split_and!; [done| |].
  - by eapply find_groups_partitions.
  - intros a b Ha Hb. by apply find_groups_same_group.
Qed.

Lemma find_groups_partition_by_chains_witness :
  let segments := [((0,0),(10,0)); ((10,0),(20,0)); ((100,0),(120,0));
                   ((10,0),(20,0))] in
  distances_finite segments = true
  ∧ ∃ groups,
      find_groups segments 5 = Ok groups
      ∧ partitions segments groups
      ∧ ∀ a b, a ∈ segments -> b ∈ segments ->
          same_group groups a b ↔ linked segments 5 a b.
Proof.
  split; [vm_compute; reflexivity|].
  apply find_groups_partition_by_chains. vm_compute; reflexivity.
Defined.

(** C7. Raising the threshold never splits a group: two segments that
    [find_groups] puts in one group at [t] are in one group at any
    [t' > t]. *)
Theorem find_groups_threshold_monotone segments t t' :
  distances_finite segments = true ->
  PrimFloat.ltb t t' = true ->
  ∃ groups groups',
    find_groups segments t = Ok groups
    ∧ find_groups segments t' = Ok groups'
    ∧ ∀ a b, same_group groups a b -> same_group groups' a b.
Proof.
  intros Hfinite Ht.
  destruct (find_groups_spec segments t Hfinite)
    as (groups & E & _ & Hall & Hcomp).
  destruct (find_groups_spec segments t' Hfinite)
    as (groups' & E' & _ & Hall' & Hcomp').
  exists groups, groups'. split_and!; [done..|].
  intros a b Hab.
  assert (a ∈ segments ∧ b ∈ segments) as [Ha Hb].
  { destruct Hab as (g & Hg & Hag & Hbg).
    split; apply Hall, elem_of_concat; eauto. }
  apply (find_groups_same_group segments t') ; [done..|].
  eapply linked_mono; [exact Ht|].
  by apply (find_groups_same_group segments t groups).
Qed.

Lemma find_groups_threshold_monotone_witness :
  let segments := [((0,0),(10,0)); ((13,0),(20,0)); ((30,0),(40,0))] in
  distances_finite segments = true
  ∧ PrimFloat.ltb 5 12 = true
  ∧ ∃ groups groups',
      find_groups segments 5 = Ok groups
      ∧ find_groups segments 12 = Ok groups'
      ∧ ∀ a b, same_group groups a b -> same_group groups' a b.
Proof.
  split; [vm_compute; reflexivity|]. split; [vm_compute; reflexivity|].
  apply find_groups_threshold_monotone; vm_compute; reflexivity.
Defined.

Example find_groups_touching_5 :
  find_groups [((0,0),(10,0)); ((10,0),(20,0))] 5
  = Ok [[((0,0),(10,0)); ((10,0),(20,0))]].
Proof. by_evaluation. Qed.

Example find_groups_touching_0 :
  find_groups [((0,0),(10,0)); ((10,0),(20,0))] 0
  = Ok [[((0,0),(10,0))]; [((10,0),(20,0))]].
Proof. by_evaluation. Qed.

Example find_groups_empty : forall t, find_groups [] t = Ok [].
Proof. reflexivity. Qed.

Example find_groups_duplicates :
  find_groups [((0,0),(1,0)); ((0,0),(1,0)); ((50,0),(60,0)); ((0,0),(1,0))] 2
  = Ok [[((0,0),(1,0))]; [((50,0),(60,0))]].
Proof. by_evaluation. Qed.

Lemma distance_self p : distance p p = Ok 0%float.
Proof.
  unfold distance, sum_squares. rewrite !Z.sub_diag. reflexivity.
Qed.

(** C6, as stated, fails: the comparison is strict, so two segments that
    share the endpoint (10, 0), at distance 0, are not connected at
    threshold 0. *)
Lemma touching_segments_apart_at_threshold_0 :
  let seg1 : segment := ((0,0),(10,0)) in
  let seg2 : segment := ((10,0),(20,0)) in
  seg1.2 = seg2.1
  ∧ distance seg1.2 seg2.1 = Ok 0%float
  ∧ PrimFloat.leb 0 0 = true
  ∧ are_connected_or_close seg1 seg2 0 = Ok false.
Proof. vm_compute. auto. Qed.

(** C6, amended. When the four endpoint distances are in the floating-point
    range, [are_connected_or_close seg1 seg2 threshold] returns true exactly
    when some endpoint of [seg1] is at a distance strictly below the
    threshold from some endpoint of [seg2], and false otherwise; segments
    that share an endpoint are connected at every threshold above 0; the
    segments ((0,0),(10,0)) and ((10,0),(20,0)) form one group at
    threshold 5. *)
Theorem are_connected_or_close_strictly_within seg1 seg2 threshold :
  endpoint_distances_finite seg1 seg2 = true ->
  (∃ c, are_connected_or_close seg1 seg2 threshold = Ok c)
  ∧ (are_connected_or_close seg1 seg2 threshold = Ok true ↔
     ∃ p q d, p ∈ endpoints seg1 ∧ q ∈ endpoints seg2
              ∧ distance p q = Ok d ∧ PrimFloat.ltb d threshold = true)
  ∧ ((∃ p, p ∈ endpoints seg1 ∧ p ∈ endpoints seg2) ->
     PrimFloat.ltb 0 threshold = true ->
     are_connected_or_close seg1 seg2 threshold = Ok true)
  ∧ find_groups [((0,0),(10,0)); ((10,0),(20,0))] 5
    = Ok [[((0,0),(10,0)); ((10,0),(20,0))]].
Proof.
  intros Hfin.
  destruct (are_connected_or_close_ok seg1 seg2 threshold Hfin)
    as (d11 & d12 & d21 & d22 & E11 & E12 & E21 & E22 & E).
  assert (are_connected_or_close seg1 seg2 threshold = Ok true ↔
     ∃ p q d, p ∈ endpoints seg1 ∧ q ∈ endpoints seg2
              ∧ distance p q = Ok d ∧ PrimFloat.ltb d threshold = true)
    as Hiff.
  { rewrite E. unfold endpoints. split.
    - intros [= H]. rewrite !orb_true_iff in H.
      destruct H as [H|[H|[H|H]]].
      + exists seg1.1, seg2.1, d11. set_solver.
      + exists seg1.1, seg2.2, d12. set_solver.
      + exists seg1.2, seg2.1, d21. set_solver.
      + exists seg1.2, seg2.2, d22. set_solver.
    - intros (p & q & d & Hp & Hq & Hd & Hlt). f_equal.
      rewrite !orb_true_iff.
      apply elem_of_cons in Hp as [->|Hp];
        [|apply list_elem_of_singleton in Hp as ->];
        (apply elem_of_cons in Hq as [->|Hq];
         [|apply list_elem_of_singleton in Hq as ->]).
      + assert (d11 = d) as -> by congruence. tauto.
      + assert (d12 = d) as -> by congruence. tauto.
      + assert (d21 = d) as -> by congruence. tauto.
      + assert (d22 = d) as -> by congruence. tauto. }
  split_and!.
  - eauto.
  - exact Hiff.
  - intros (p & Hp1 & Hp2) Hpos. apply Hiff.
    exists p, p, 0%float. split_and!; [done..|apply distance_self|done].
  - vm_compute. reflexivity.
Qed.

Lemma are_connected_or_close_strictly_within_witness :
  let seg1 : segment := ((0,0),(10,0)) in
  let seg2 : segment := ((13,4),(20,0)) in
  endpoint_distances_finite seg1 seg2 = true
  ∧ (are_connected_or_close seg1 seg2 5.5 = Ok true ↔
     ∃ p q d, p ∈ endpoints seg1 ∧ q ∈ endpoints seg2
              ∧ distance p q = Ok d ∧ PrimFloat.ltb d 5.5 = true).
Proof.
  split; [vm_compute; reflexivity|].
  apply (are_connected_or_close_strictly_within ((0,0),(10,0)) ((13,4),(20,0))).
  vm_compute; reflexivity.
Defined.

(** ** Zigzag filter *)

Lemma foldM_invariant {A B : Type} (I : A -> Prop) (f : A -> B -> result A)
    (l : list B) (a : A) :
  I a ->
  (∀ a b, b ∈ l -> I a -> ∃ a', f a b = Ok a' ∧ I a') ->
  ∃ a', foldM f a l = Ok a' ∧ I a'.
Proof.
  revert a. induction l as [ | b l IH]; intros a Ha Hstep; simpl; [eauto|].
  destruct (Hstep a b) as (a' & -> & Ha'); [set_solver|done|]. simpl.
  apply IH; [done|]. intros a0 b0 Hb0. apply Hstep. set_solver.
Qed.

Lemma predict_direction_ok atan2 points p q :
  directions_finite points = true -> p ∈ points -> q ∈ points ->
  ∃ d, predict_direction atan2 p q = Ok d.
Proof.
  unfold directions_finite. rewrite forallb_forall. intros H Hp Hq.
  apply list_elem_of_In in Hp, Hq. specialize (H p Hp).
  rewrite forallb_forall in H. specialize (H q Hq).
  apply andb_true_iff in H as [Hy Hx]. unfold predict_direction.
  destruct (float_of_int (q.2 - p.2)); [|done].
  destruct (float_of_int (q.1 - p.1)); [|done]. simpl. eauto.
Qed.

Lemma zigzag_step_spec atan2 points tolerance first_point filtered_points i :
  directions_finite points = true ->
  (1 <= i)%nat -> (i + 1 < length points)%nat ->
  zigzag_inv atan2 points tolerance first_point filtered_points ->
  ∃ filtered_points',
    zigzag_step atan2 points tolerance filtered_points i = Ok filtered_points'
    ∧ zigzag_inv atan2 points tolerance first_point filtered_points'.
Proof.
  intros Hfin Hi1 Hi2 (Hhd & Hin & Hkept). unfold zigzag_step.
  destruct (last filtered_points) as [prev| ] eqn:Hlast;
    [|by destruct filtered_points; [|apply last_None in Hlast]].
  destruct (lookup_lt_is_Some_2 points i) as [cur Hcur]; [lia|].
  destruct (lookup_lt_is_Some_2 points (i + 1)) as [next Hnext]; [lia|].
  rewrite Hcur, Hnext. simpl.
  assert (prev ∈ points) as Hprev.
  { apply Hin. rewrite last_lookup in Hlast.
    by eapply list_elem_of_lookup_2. }
  assert (cur ∈ points) as Hcurin by by eapply list_elem_of_lookup_2.
  assert (next ∈ points) as Hnextin by by eapply list_elem_of_lookup_2.
  destruct (predict_direction_ok atan2 points prev cur Hfin Hprev Hcurin)
    as [dp Edp].
  destruct (predict_direction_ok atan2 points cur next Hfin Hcurin Hnextin)
    as [dn Edn].
  rewrite Edp, Edn. simpl.
  destruct (within_tolerance dp dn tolerance) eqn:Hw;
    eexists; (split; [reflexivity|]); [|done].
  split_and!.
  - by destruct filtered_points.
  - intros p [Hp|Hp]%elem_of_app; [by apply Hin|].
    by apply list_elem_of_singleton in Hp as ->.
  - intros j a b Ha Hb.
    destruct (decide (j + 1 < length filtered_points)%nat) as [Hj|Hj].
    + rewrite lookup_app_l in Ha by lia. rewrite lookup_app_l in Hb by lia.
      by eapply Hkept.
    + apply lookup_lt_Some in Hb as Hlen. rewrite length_app in Hlen.
      simpl in Hlen.
      assert (j + 1 = length filtered_points)%nat as Hj' by lia.
      rewrite lookup_app_l in Ha by lia.
      rewrite lookup_app_r, Hj', Nat.sub_diag in Hb by lia.
      injection Hb as <-.
      rewrite last_lookup in Hlast.
      replace (pred (length filtered_points)) with j in Hlast by lia.
      assert (a = prev) as -> by congruence.
      exists i, next. split_and!; [done..|].
      exists dp, dn. by split_and!.
Qed.

(** The loop invariant at the end of the loop. *)
Lemma filter_zigzag_spec atan2 points tolerance :
  directions_finite points = true ->
  ∃ out,
    filter_zigzag atan2 points tolerance = Ok out
    ∧ ((2 <= length points)%nat ->
       head out = head points ∧ last out = last points)
    ∧ ((3 <= length points)%nat ->
       ∀ j prev cur,
         out !! j = Some prev -> out !! (j + 1)%nat = Some cur ->
         (j + 2 < length out)%nat ->
         kept_by_test atan2 points tolerance prev cur).
Proof.
  unfold filter_zigzag.
  intros Hfin. destruct (Nat.ltb_spec (length points) 3) as [Hlen|Hlen].
  { exists points. split_and!; [done..|lia]. }
  destruct points as [ | first_point rest] eqn:Hpts; [simpl in Hlen; lia|].
  rewrite <- Hpts in *.
  assert (points !! 0%nat = Some first_point) as H0 by by rewrite Hpts.
  destruct (last points) as [last_point| ] eqn:Hlast;
    [|by rewrite Hpts in Hlast; apply last_None in Hlast].
  rewrite H0. simpl.
  destruct (foldM_invariant
              (zigzag_inv atan2 points tolerance first_point)
              (zigzag_step atan2 points tolerance)
              (seq 1 (length points - 2)) [first_point])
    as (filtered & -> & Hhd & Hin & Hkept).
  { split_and!; [done| |].
    - intros p ->%list_elem_of_singleton. by eapply list_elem_of_lookup_2.
    - intros j prev cur _ Hc. by destruct j. }
  { intros a i Hi%elem_of_seq Ha. apply zigzag_step_spec; [done|lia..|done]. }
  simpl. eexists. split; [reflexivity|]. split.
  + intros _. split.
    * replace (head points) with (Some first_point) by by rewrite Hpts.
      by destruct filtered.
    * by rewrite last_snoc.
  + intros _ j prev cur Hp Hc Hj. rewrite length_app in Hj. simpl in Hj.
    rewrite lookup_app_l in Hp by lia. rewrite lookup_app_l in Hc by lia.
    by eapply Hkept.
Qed.

(** The test a kept point passed, written out on the coordinates. *)
Lemma kept_by_test_spelled atan2 points tolerance prev cur :
  kept_by_test atan2 points tolerance prev cur ->
  ∃ i next dy_in dx_in dy_out dx_out,
    (1 <= i)%nat ∧ (i + 1 < length points)%nat
    ∧ points !! i = Some cur ∧ points !! (i + 1)%nat = Some next
    ∧ float_of_int (cur.2 - prev.2) = Ok dy_in
    ∧ float_of_int (cur.1 - prev.1) = Ok dx_in
    ∧ float_of_int (next.2 - cur.2) = Ok dy_out
    ∧ float_of_int (next.1 - cur.1) = Ok dx_out
    ∧ PrimFloat.leb
        (PrimFloat.abs
           (atan2 dy_out dx_out * (180 / 0x1.921fb54442d18p+1)
            - atan2 dy_in dx_in * (180 / 0x1.921fb54442d18p+1)))
        tolerance = true.
Proof.
  intros (i & next & Hi1 & Hi2 & Hc & Hn & dp & dn & Hdp & Hdn & Hw).
  unfold predict_direction in Hdp, Hdn.
  destruct (float_of_int (cur.2 - prev.2)) as [dy_in|e] eqn:E1; [|done].
  destruct (float_of_int (cur.1 - prev.1)) as [dx_in|e] eqn:E2; [|done].
  destruct (float_of_int (next.2 - cur.2)) as [dy_out|e] eqn:E3; [|done].
  destruct (float_of_int (next.1 - cur.1)) as [dx_out|e] eqn:E4; [|done].
  simpl in Hdp, Hdn. injection Hdp as <-. injection Hdn as <-.
  exists i, next, dy_in, dx_in, dy_out, dx_out. split_and!; try done.
Qed.

(** C5, as stated, fails: the direction into a point is taken from the
    point kept last, not from its predecessor in the input. In the path
    (0,0), (1,2), (2,0), (3,0) at tolerance 50 the point (1,2) is dropped
    and the interior point (2,0) is kept, although the turn at (2,0) along
    the input, from the direction (1,2) -> (2,0) to the direction
    (2,0) -> (3,0), is 63.43 degrees. *)
Lemma zigzag_turn_measured_from_last_kept_point :
  let points : list point := [(0,0); (1,2); (2,0); (3,0)] in
  let direction_in :=
    (example_atan2 (-2) 1 * (180 / 0x1.921fb54442d18p+1))%float in
  let direction_out :=
    (example_atan2 0 1 * (180 / 0x1.921fb54442d18p+1))%float in
  filter_zigzag example_atan2 points 50 = Ok [(0,0); (2,0); (3,0)]
  ∧ predict_direction example_atan2 (1,2) (2,0) = Ok direction_in
  ∧ predict_direction example_atan2 (2,0) (3,0) = Ok direction_out
  ∧ PrimFloat.abs (direction_out - direction_in) = 63.43494882292201%float
  ∧ PrimFloat.leb (PrimFloat.abs (direction_out - direction_in)) 50 = false.
Proof. repeat split; by_evaluation. Qed.

(** C5, amended. [filter_zigzag] returns an input of fewer than 3 points
    unchanged. When the coordinate differences are in the floating-point
    range it returns a list; for an input of at least 2 points its first
    and last points are those of the input; and, for an input of at least 3
    points, every point [cur] of the output other than the first and the
    last is an inner point [points[i]] of the input for which
    [abs(direction_next - direction_prev) <= tolerance] held, where
    [direction_prev] is the direction in degrees from [prev], the point
    kept before it (the output's previous point), to [cur], and
    [direction_next] the direction from [cur] to [points[i + 1]]. *)
Theorem filter_zigzag_endpoints_and_turns atan2 points tolerance :
  ((length points < 3)%nat -> filter_zigzag atan2 points tolerance = Ok points)
  ∧ (directions_finite points = true ->
     ∃ out,
       filter_zigzag atan2 points tolerance = Ok out
       ∧ ((2 <= length points)%nat ->
          head out = head points ∧ last out = last points)
       ∧ ((3 <= length points)%nat ->
          ∀ j prev cur,
            out !! j = Some prev -> out !! (j + 1)%nat = Some cur ->
            (j + 2 < length out)%nat ->
            ∃ i next dy_in dx_in dy_out dx_out,
              (1 <= i)%nat ∧ (i + 1 < length points)%nat
              ∧ points !! i = Some cur ∧ points !! (i + 1)%nat = Some next
              ∧ float_of_int (cur.2 - prev.2) = Ok dy_in
              ∧ float_of_int (cur.1 - prev.1) = Ok dx_in
              ∧ float_of_int (next.2 - cur.2) = Ok dy_out
              ∧ float_of_int (next.1 - cur.1) = Ok dx_out
              ∧ PrimFloat.leb
                  (PrimFloat.abs
                     (atan2 dy_out dx_out * (180 / 0x1.921fb54442d18p+1)
                      - atan2 dy_in dx_in * (180 / 0x1.921fb54442d18p+1)))
                  tolerance = true)).
Proof.
  split.
  - intros Hlen. unfold filter_zigzag. by apply Nat.ltb_lt in Hlen as ->.
  - intros Hfin.
    destruct (filter_zigzag_spec atan2 points tolerance Hfin)
      as (out & Hout & Hends & Hkept).
    exists out. split_and!; [done..|].
    intros Hlen j prev cur Hp Hc Hj.
    by eapply kept_by_test_spelled, Hkept.
Qed.

Lemma filter_zigzag_endpoints_and_turns_witness :
  let points : list point := [(0,0); (1,2); (2,0); (3,0)] in
  directions_finite points = true
  ∧ ∃ out,
      filter_zigzag example_atan2 points 50 = Ok out
      ∧ ((2 <= length points)%nat ->
         head out = head points ∧ last out = last points)
      ∧ ((3 <= length points)%nat ->
         ∀ j prev cur,
           out !! j = Some prev -> out !! (j + 1)%nat = Some cur ->
           (j + 2 < length out)%nat ->
           ∃ i next dy_in dx_in dy_out dx_out,
             (1 <= i)%nat ∧ (i + 1 < length points)%nat
             ∧ points !! i = Some cur ∧ points !! (i + 1)%nat = Some next
             ∧ float_of_int (cur.2 - prev.2) = Ok dy_in
             ∧ float_of_int (cur.1 - prev.1) = Ok dx_in
             ∧ float_of_int (next.2 - cur.2) = Ok dy_out
             ∧ float_of_int (next.1 - cur.1) = Ok dx_out
             ∧ PrimFloat.leb
                 (PrimFloat.abs
                    (example_atan2 dy_out dx_out
                       * (180 / 0x1.921fb54442d18p+1)
                     - example_atan2 dy_in dx_in
                         * (180 / 0x1.921fb54442d18p+1)))
                 50 = true).
Proof.
  split; [vm_compute; reflexivity|].
  apply (filter_zigzag_endpoints_and_turns example_atan2
           [(0,0); (1,2); (2,0); (3,0)] 50).
  vm_compute; reflexivity.
Defined.

(** ** Smoothing *)

Lemma dict_fromkeys_fold (keys points : list point) :
  NoDup keys ->
  ∃ added,
    foldl (fun keys p => if decide (p ∈ keys) then keys else keys ++ [p])
      keys points = keys ++ added
    ∧ NoDup (keys ++ added)
    ∧ added `sublist_of` points
    ∧ ∀ p, p ∈ points -> p ∈ keys ++ added.
Proof.
  revert keys. induction points as [ | p points IH]; intros keys Hnd; simpl.
  - exists []. rewrite app_nil_r. split_and!; [done..|]. set_solver.
  - destruct (decide (p ∈ keys)) as [Hp|Hp].
    + destruct (IH keys Hnd) as (added & E & Hnd' & Hsub & Hall).
      exists added. split_and!; [done..| |].
      * by apply sublist_cons.
      * intros q [->|Hq]%elem_of_cons; [set_solver|by apply Hall].
    + destruct (IH (keys ++ [p])) as (added & E & Hnd' & Hsub & Hall).
      { apply NoDup_app. split_and!; [done| |apply NoDup_singleton].
        intros x Hx ->%list_elem_of_singleton. done. }
      exists (p :: added). rewrite E, <- !app_assoc in *. simpl in *.
      split_and!; [done..| |].
      * by apply sublist_skip.
      * intros q [->|Hq]%elem_of_cons; [set_solver|by apply Hall].
Qed.

(** [dict.fromkeys] removes the repetitions and keeps the order. *)
Lemma dict_fromkeys_spec (points : list point) :
  NoDup (dict_fromkeys points)
  ∧ dict_fromkeys points `sublist_of` points
  ∧ ∀ p, p ∈ dict_fromkeys points ↔ p ∈ points.
Proof.
  destruct (dict_fromkeys_fold [] points) as (added & E & Hnd & Hsub & Hall);
    [constructor|].
  unfold dict_fromkeys. rewrite E. simpl in *. split_and!; [done..|].
  intros p. split; [|by apply Hall].
  intros Hp. by eapply elem_of_sublist.
Qed.

(** C4, as stated, fails.  Five copies of one point are fewer than five
    distinct points, yet the result is not the input; two copies of one
    point are returned as they are, not deduplicated; and on five points of
    which three are distinct the spline is fitted, with degree 2 and 30
    samples, and its result returned when the fit succeeds. *)
Lemma smooth_path_guard_counts_repetitions :
  let five : list point := replicate 5 (0, 0) in
  let two : list point := replicate 2 (0, 0) in
  let mixed : list point := [(0,0); (0,0); (0,0); (1,1); (2,2)] in
  ((length (dict_fromkeys five) < 5)%nat
   ∧ ∀ (tck : Type) splprep splev linspace_0_1 np_int32,
       smooth_path tck splprep splev linspace_0_1 np_int32 five 0 = [(0, 0)]
       ∧ smooth_path tck splprep splev linspace_0_1 np_int32 five 0 ≠ five)
  ∧ (dict_fromkeys two = [(0, 0)]
     ∧ ∀ (tck : Type) splprep splev linspace_0_1 np_int32,
         smooth_path tck splprep splev linspace_0_1 np_int32 two 0 = two
         ∧ smooth_path tck splprep splev linspace_0_1 np_int32 two 0
           ≠ dict_fromkeys two)
  ∧ ((length (dict_fromkeys mixed) < 5)%nat
     ∧ ∀ (tck : Type) splprep splev linspace_0_1 np_int32 spl x_fine y_fine,
         splprep [0; 1; 2] [0; 1; 2] 0%float 2%nat = Ok spl ->
         splev (linspace_0_1 30%nat) spl = Ok (x_fine, y_fine) ->
         smooth_path tck splprep splev linspace_0_1 np_int32 mixed 0
         = zip (map np_int32 x_fine) (map np_int32 y_fine)).
Proof.
  intros five two mixed. subst five two mixed. split_and!.
  - vm_compute. lia.
  - intros. split; [reflexivity|]. vm_compute. discriminate.
  - reflexivity.
  - intros. split; [reflexivity|]. vm_compute. discriminate.
  - vm_compute. lia.
  - intros tck splprep splev linspace_0_1 np_int32 spl x_fine y_fine
      Hprep Hev.
    unfold smooth_path.
    change (dict_fromkeys [(0,0); (0,0); (0,0); (1,1); (2,2)])
      with [(0,0); (1,1); (2,2)]. simpl.
    rewrite Hprep. simpl. by rewrite Hev.
Qed.

(** C4, amended.  [smooth_path] never raises.  An input of fewer than 5
    points (repetitions counted) is returned unchanged, without
    deduplication.  Otherwise the points are deduplicated, keeping order; if
    fewer than 2 distinct points remain they are returned; otherwise a
    spline of degree min(3, n - 1) is fitted through the n distinct points
    and sampled at 10 n parameters, and the samples cast to [int32] are
    returned, or the n distinct points if the fit raises. *)
Theorem smooth_path_cases (tck : Type) splprep splev linspace_0_1 np_int32
    points smoothing_factor :
  let smooth := smooth_path tck splprep splev linspace_0_1 np_int32 in
  let distinct := dict_fromkeys points in
  let n := length distinct in
  (NoDup distinct ∧ distinct `sublist_of` points
   ∧ ∀ p, p ∈ distinct ↔ p ∈ points)
  ∧ ((length points < 5)%nat -> smooth points smoothing_factor = points)
  ∧ ((5 <= length points)%nat -> (n < 2)%nat ->
     smooth points smoothing_factor = distinct)
  ∧ ((5 <= length points)%nat -> (2 <= n)%nat ->
     smooth points smoothing_factor =
     match splprep (map fst distinct) (map snd distinct) smoothing_factor
             (Nat.min 3 (n - 1)) with
     | Ok spl =>
         match splev (linspace_0_1 (n * 10)%nat) spl with
         | Ok (x_fine, y_fine) =>
             zip (map np_int32 x_fine) (map np_int32 y_fine)
         | Raise _ => distinct
         end
     | Raise _ => distinct
     end).
Proof.
  intros smooth distinct n. subst smooth. unfold smooth_path.
  fold distinct. fold n. split; [apply dict_fromkeys_spec|]. split_and!.
  - intros H. by apply Nat.ltb_lt in H as ->.
  - intros H1 H2. apply Nat.ltb_ge in H1 as ->. by apply Nat.ltb_lt in H2 as ->.
  - intros H1 H2. apply Nat.ltb_ge in H1 as ->. apply Nat.ltb_ge in H2 as ->.
    destruct (splprep _ _ _ _) as [spl|e]; simpl; [|done].
    by destruct (splev _ _) as [[x_fine y_fine]|e].
Qed.

Lemma smooth_path_cases_witness :
  let splprep (x y : list Z) (s : float) (k : nat) : result unit :=
    Raise ValueError in
  let splev (u : list float) (spl : unit) : result (list float * list float) :=
    Ok ([], []) in
  let smooth := smooth_path unit splprep splev (fun _ => []) (fun _ => 0) in
  let points : list point := [(0,0); (1,1); (1,1); (2,2); (3,3)] in
  ((length points < 5)%nat -> smooth points 0%float = points)
  ∧ ((5 <= length points)%nat ->
     (2 <= length (dict_fromkeys points))%nat ->
     smooth points 0%float = [(0,0); (1,1); (2,2); (3,3)]).
Proof.
  pose proof (smooth_path_cases unit (fun _ _ _ _ => Raise ValueError)
                (fun _ _ => Ok ([], [])) (fun _ => []) (fun _ => 0)
                [(0,0); (1,1); (1,1); (2,2); (3,3)] 0) as H.
  simpl in H. destruct H as (_ & H1 & _ & H2). split; [exact H1|].
  intros Ha Hb. exact (H2 Ha Hb).
Defined.

(** ** World file and affine transform *)

Lemma forM_Forall2 {A B : Type} (f : A -> result B) l out :
  forM f l = Ok out ↔ Forall2 (fun a b => f a = Ok b) l out.
Proof.
  revert out. induction l as [ | a l IH]; intros out; simpl.
  - split; [by intros [= <-]; constructor|by inversion 1].
  - destruct (f a) as [b|e] eqn:Ea; simpl.
    + destruct (forM f l) as [bs|e] eqn:El; simpl.
      * split.
        -- intros [= <-]. constructor; [done|]. by apply IH.
        -- inversion 1 as [ | ? ? ? ? Hb Hbs]; subst.
           apply IH in Hbs. congruence.
      * split; [done|]. inversion 1 as [ | ? ? ? ? Hb Hbs]; subst.
        by apply IH in Hbs.
    + split; [done|]. inversion 1; congruence.
Qed.

Lemma transform_point_ok w tr p :
  point_finite p = true ->
  ∃ x y, float_of_int p.1 = Ok x ∧ float_of_int p.2 = Ok y
         ∧ transform_point w tr p = Ok (reproject tr (affine w x y)).
Proof.
  unfold point_finite, transform_point. intros [H1 H2]%andb_true_iff.
  destruct (float_of_int p.1) as [x|]; [|done].
  destruct (float_of_int p.2) as [y|]; [|done]. by exists x, y.
Qed.

Lemma point_finite_in_pixel_range p :
  in_pixel_range p -> point_finite p = true.
Proof.
  intros [H1 H2]. unfold point_finite.
  rewrite !float_of_int_small; [done|lia..].
Qed.

Lemma forM_transform_point w tr pts :
  forallb point_finite pts = true ->
  ∃ geo, forM (transform_point w tr) pts = Ok geo.
Proof.
  induction pts as [ | p pts IH]; simpl; [eauto|].
  intros [Hp Hpts]%andb_true_iff.
  destruct (transform_point_ok w tr p Hp) as (x & y & _ & _ & ->).
  destruct (IH Hpts) as [geo ->]. simpl. eauto.
Qed.

Example scenario_parses :
  parse_jgw example_strip example_float scenario_lines
  = Ok scenario_world_file.
Proof. by_evaluation. Qed.

Example scenario_point from_crs :
  transform_coordinates example_strip example_float from_crs scenario_lines
    [(100, 50)] 1%positive {[1%positive := OList []]}
  = (Ok ([(13.42%float, 52.49%float)], 1%positive),
     {[1%positive := OList []]}).
Proof. by_evaluation. Qed.

Example identity_like_transform from_crs :
  transform_point (WorldFile 1 0 0 1 0 0)
    (make_transformer from_crs (WorldFile 1 0 0 1 0 0)) (10, 20)
  = Ok (10%float, 20%float).
Proof. by_evaluation. Qed.

(** C2. When the world file parses and no transformer is active, every
    pixel point (px, py) in the floating-point range is mapped to exactly
    (A px + B py + C, D px + E py + F), computed in binary64 in that order;
    for the world file (0.0002, 0, 0, -0.0002, 13.4, 52.5) no transformer is
    requested and the pixel point (100, 50) yields (13.42, 52.49). *)
Theorem transform_coordinates_affine_only strip parse_float from_crs
    jgw_lines pixel_coordinates polygon_areas h w polys h' :
  parse_jgw strip parse_float jgw_lines = Ok w ->
  make_transformer from_crs w = None ->
  h !! polygon_areas = Some (OList polys) ->
  transform_polygons w None polys h = (Ok (), h') ->
  forallb point_finite pixel_coordinates = true ->
  (∃ geographic_coords,
     transform_coordinates strip parse_float from_crs jgw_lines
       pixel_coordinates polygon_areas h
     = (Ok (geographic_coords, polygon_areas), h')
     ∧ Forall2 (fun p xy =>
         ∃ px py, float_of_int p.1 = Ok px ∧ float_of_int p.2 = Ok py
           ∧ xy = ((wf_A w * px + wf_B w * py + wf_C w)%float,
                   (wf_D w * px + wf_E w * py + wf_F w)%float))
         pixel_coordinates geographic_coords)
  ∧ requests_transformer scenario_world_file = false
  ∧ transform_coordinates example_strip example_float from_crs scenario_lines
      [(100, 50)] 1%positive {[1%positive := OList []]}
    = (Ok ([(13.42%float, 52.49%float)], 1%positive),
       {[1%positive := OList []]}).
Proof.
  intros Hparse Htr Hlist Hpolys Hfin. split_and!.
  - unfold transform_coordinates. rewrite Hparse, Htr, Hlist, Hpolys.
    destruct (forM_transform_point w None _ Hfin) as [geo Hgeo].
    rewrite Hgeo. exists geo. split; [done|].
    apply forM_Forall2 in Hgeo.
    rewrite forallb_forall in Hfin.
    induction Hgeo as [ | p xy pts geo Hp _ IH]; constructor.
    + destruct (transform_point_ok w None p) as (x & y & Hx & Hy & E).
      { apply Hfin. by left. }
      exists x, y. split_and!; [done..|]. rewrite E in Hp. by injection Hp.
    + apply IH. intros q Hq. apply Hfin. by right.
  - vm_compute. reflexivity.
  - vm_compute. reflexivity.
Qed.

Lemma transform_coordinates_affine_only_witness :
  ∃ geographic_coords,
    transform_coordinates example_strip example_float None scenario_lines
      [(100, 50); (0, 0)] 1%positive {[1%positive := OList []]}
    = (Ok (geographic_coords, 1%positive), {[1%positive := OList []]})
    ∧ Forall2 (fun p xy =>
        ∃ px py, float_of_int p.1 = Ok px ∧ float_of_int p.2 = Ok py
          ∧ xy = ((wf_A scenario_world_file * px
                   + wf_B scenario_world_file * py
                   + wf_C scenario_world_file)%float,
                  (wf_D scenario_world_file * px
                   + wf_E scenario_world_file * py
                   + wf_F scenario_world_file)%float))
        [(100, 50); (0, 0)] geographic_coords.
Proof.
  apply (transform_coordinates_affine_only example_strip example_float None
           scenario_lines [(100, 50); (0, 0)] 1%positive
           {[1%positive := OList []]} scenario_world_file []
           {[1%positive := OList []]});
    vm_compute; reflexivity.
Defined.

(** A coefficient C of at least 500000 is above 1000 in absolute value:
    the envelope test implies the projected-coordinates test. *)
Lemma envelope_is_projected w :
  in_utm_envelope w = true -> is_projected w = true.
Proof.
  unfold in_utm_envelope, is_projected.
  rewrite !andb_true_iff. intros [[[H _] _] _].
  rewrite !orb_true_iff. left. left.
  rewrite leb_spec in H. rewrite ltb_spec, abs_spec.
  destruct (Prim2SF (wf_C w)) as [s|s| |s m e].
  - vm_compute in H. destruct s; discriminate.
  - destruct s; [vm_compute in H; discriminate|]. reflexivity.
  - vm_compute in H. discriminate.
  - destruct s; [vm_compute in H; discriminate|].
    change (Prim2SF 500000) with (S754_finite false 8589934592000000 (-34)) in H.
    change (Prim2SF 1000) with (S754_finite false 8796093022208000 (-43)).
    unfold SFleb, SFltb, SFabs, SFcompare in *.
    destruct (Z.compare_spec (-34) e); destruct (Z.compare_spec (-43) e);
      try lia; try done.
Qed.

(** C3. The transformer from EPSG:25832 to WGS84 is requested exactly when
    the coefficients pass both the projected-coordinates test
    (|C| > 1000 or |F| > 1000 or |A| > 1) and the envelope test
    (500000 <= C <= 900000 and 5000000 <= F <= 6500000); the transformer in
    use is then the result of the construction, and is absent otherwise.
    (The first test follows from the second.)  C = 650000, F = 5800000
    requests it; C = 5.2, F = 50.9 does not, and a point is then mapped by
    the affine transform alone. *)
Theorem transformer_requested_iff from_crs w :
  (requests_transformer w = true ↔
   (PrimFloat.ltb 1000 (PrimFloat.abs (wf_C w)) = true
    ∨ PrimFloat.ltb 1000 (PrimFloat.abs (wf_F w)) = true
    ∨ PrimFloat.ltb 1 (PrimFloat.abs (wf_A w)) = true)
   ∧ (PrimFloat.leb 500000 (wf_C w) = true
      ∧ PrimFloat.leb (wf_C w) 900000 = true)
   ∧ (PrimFloat.leb 5000000 (wf_F w) = true
      ∧ PrimFloat.leb (wf_F w) 6500000 = true))
  ∧ make_transformer from_crs w
    = (if requests_transformer w then from_crs else None)
  ∧ (∀ tr, make_transformer (Some tr) w = Some tr ↔
           is_projected w = true ∧ in_utm_envelope w = true)
  ∧ requests_transformer w = in_utm_envelope w
  ∧ (∀ A D B E,
       requests_transformer (WorldFile A D B E 650000 5800000) = true
       ∧ make_transformer from_crs (WorldFile A D B E 650000 5800000)
         = from_crs)
  ∧ (∀ A D B E p,
       let w' := WorldFile A D B E 5.2 50.9 in
       requests_transformer w' = false
       ∧ make_transformer from_crs w' = None
       ∧ transform_point w' (make_transformer from_crs w') p
         = (x ← float_of_int p.1; y ← float_of_int p.2; Ok (affine w' x y))).
Proof.
  split_and!.
  - unfold requests_transformer, is_projected, in_utm_envelope.
    destruct (PrimFloat.ltb 1000 (PrimFloat.abs (wf_C w)));
      destruct (PrimFloat.ltb 1000 (PrimFloat.abs (wf_F w)));
      destruct (PrimFloat.ltb 1 (PrimFloat.abs (wf_A w)));
      destruct (PrimFloat.leb 500000 (wf_C w));
      destruct (PrimFloat.leb (wf_C w) 900000);
      destruct (PrimFloat.leb 5000000 (wf_F w));
      destruct (PrimFloat.leb (wf_F w) 6500000);
      simpl; intuition discriminate.
  - unfold make_transformer, requests_transformer.
    by destruct (is_projected w), (in_utm_envelope w).
  - intros tr. unfold make_transformer.
    destruct (is_projected w), (in_utm_envelope w); intuition discriminate.
  - pose proof (envelope_is_projected w) as H. unfold requests_transformer.
    destruct (is_projected w), (in_utm_envelope w); try done.
    by specialize (H eq_refl).
  - intros A D B E. split; reflexivity.
  - intros A D B E p w'.
    assert (make_transformer from_crs w' = None) as Hnone.
    { unfold make_transformer, w'.
      by destruct (is_projected (WorldFile A D B E 5.2 50.9)). }
    split_and!.
    + unfold requests_transformer, w'.
      by destruct (is_projected (WorldFile A D B E 5.2 50.9)).
    + exact Hnone.
    + by rewrite Hnone.
Qed.

(** C8, as stated, fails: a world file of seven lines has the wrong line
    count, yet it parses like its first six lines and the transformation
    succeeds. *)
Lemma seven_line_world_file_accepted :
  let jgw_lines := scenario_lines ++ ["trailing text" +:+ newline] in
  length jgw_lines = 7%nat
  ∧ parse_jgw example_strip example_float jgw_lines = Ok scenario_world_file
  ∧ transform_coordinates example_strip example_float None jgw_lines
      [(100, 50)] 1%positive {[1%positive := OList []]}
    = (Ok ([(13.42%float, 52.49%float)], 1%positive),
       {[1%positive := OList []]}).
Proof. vm_compute. auto. Qed.

Lemma read_coefficient_Some strip parse_float jgw_lines i line x :
  jgw_lines !! i = Some line -> parse_float (strip line) = Some x ->
  read_coefficient strip parse_float jgw_lines i = Ok x.
Proof.
  unfold read_coefficient. intros H1 H2. rewrite H1. simpl. by rewrite H2.
Qed.

Lemma read_coefficient_inv strip parse_float jgw_lines i x :
  read_coefficient strip parse_float jgw_lines i = Ok x ->
  ∃ line, jgw_lines !! i = Some line ∧ parse_float (strip line) = Some x.
Proof.
  unfold read_coefficient. destruct (jgw_lines !! i) as [line| ]; [|done].
  simpl. destruct (parse_float (strip line)) as [y| ] eqn:E; [|done].
  intros [= <-]. eauto.
Qed.

(** The parse succeeds exactly when each of the first six lines reads as a
    number, and then yields the six numbers in the order A, D, B, E, C, F. *)
Lemma parse_jgw_Ok strip parse_float jgw_lines w :
  parse_jgw strip parse_float jgw_lines = Ok w ↔
  Forall2 (fun line x => parse_float (strip line) = Some x)
    (take 6 jgw_lines) [wf_A w; wf_D w; wf_B w; wf_E w; wf_C w; wf_F w]
  ∧ (6 <= length jgw_lines)%nat.
Proof.
  unfold parse_jgw. split.
  - destruct (read_coefficient _ _ _ 0) as [a| ] eqn:Ea; [|done].
    destruct (read_coefficient _ _ _ 1) as [d| ] eqn:Ed; [|done].
    destruct (read_coefficient _ _ _ 2) as [b| ] eqn:Eb; [|done].
    destruct (read_coefficient _ _ _ 3) as [e| ] eqn:Ee; [|done].
    destruct (read_coefficient _ _ _ 4) as [c| ] eqn:Ec; [|done].
    destruct (read_coefficient _ _ _ 5) as [f| ] eqn:Ef; [|done].
    simpl. intros [= <-]. simpl.
    apply read_coefficient_inv in Ea as (la & Ha & Pa).
    apply read_coefficient_inv in Ed as (ld & Hd & Pd).
    apply read_coefficient_inv in Eb as (lb & Hb & Pb).
    apply read_coefficient_inv in Ee as (le & He & Pe).
    apply read_coefficient_inv in Ec as (lc & Hc & Pc).
    apply read_coefficient_inv in Ef as (lf & Hf & Pf).
    destruct jgw_lines as [ | ? [ | ? [ | ? [ | ? [ | ? [ | ? rest]]]]]];
      try done.
    simpl in *. split; [|lia].
    injection Ha as ->. injection Hd as ->. injection Hb as ->.
    injection He as ->. injection Hc as ->. injection Hf as ->.
    repeat (constructor; [done|]). constructor.
  - intros [H Hlen].
    destruct jgw_lines as [ | la [ | ld [ | lb [ | le [ | lc [ | lf rest]]]]]];
      simpl in Hlen; try lia.
    simpl in H.
    repeat match goal with
           | H : Forall2 _ (_ :: _) (_ :: _) |- _ =>
               apply Forall2_cons in H as [? H]
           end.
    rewrite (read_coefficient_Some _ _ _ 0 la (wf_A w)) by done.
    rewrite (read_coefficient_Some _ _ _ 1 ld (wf_D w)) by done.
    rewrite (read_coefficient_Some _ _ _ 2 lb (wf_B w)) by done.
    rewrite (read_coefficient_Some _ _ _ 3 le (wf_E w)) by done.
    rewrite (read_coefficient_Some _ _ _ 4 lc (wf_C w)) by done.
    rewrite (read_coefficient_Some _ _ _ 5 lf (wf_F w)) by done.
    simpl. by destruct w.
Qed.

(** C8, amended. [transform_coordinates] raises, leaving the heap as it
    was, when the world file has fewer than six lines or one of its first
    six lines does not read as a number; when each of the first six lines
    reads as a number the coefficients are these numbers in the order
    A, D, B, E, C, F, and lines after the sixth are ignored. *)
Theorem world_file_parse_cases strip parse_float from_crs jgw_lines
    pixel_coordinates polygon_areas h :
  ((length jgw_lines < 6)%nat
   ∨ Exists (fun line => parse_float (strip line) = None) (take 6 jgw_lines) ->
   ∃ e, parse_jgw strip parse_float jgw_lines = Raise e
        ∧ transform_coordinates strip parse_float from_crs jgw_lines
            pixel_coordinates polygon_areas h = (Raise e, h))
  ∧ (∀ A D B E C F,
       (6 <= length jgw_lines)%nat ->
       Forall2 (fun line x => parse_float (strip line) = Some x)
         (take 6 jgw_lines) [A; D; B; E; C; F] ->
       parse_jgw strip parse_float jgw_lines = Ok (WorldFile A D B E C F)
       ∧ parse_jgw strip parse_float (take 6 jgw_lines)
         = Ok (WorldFile A D B E C F)).
Proof.
  split.
  - intros Hbad.
    destruct (parse_jgw strip parse_float jgw_lines) as [w|e] eqn:Hparse.
    + exfalso. apply parse_jgw_Ok in Hparse as [Hall Hlen].
      destruct Hbad as [Hshort|Hnon]; [lia|].
      apply Exists_exists in Hnon as (line & Hin & Hnone).
      apply list_elem_of_lookup in Hin as [i Hi].
      destruct (Forall2_lookup_l _ _ _ i line Hall Hi) as (x & _ & Hx).
      congruence.
    + exists e. split; [done|]. unfold transform_coordinates.
      by rewrite Hparse.
  - intros A D B E C F Hlen Hall. split.
    + apply parse_jgw_Ok. simpl. done.
    + apply parse_jgw_Ok. simpl. rewrite take_take, length_take.
      split; [done|lia].
Qed.

Lemma world_file_parse_cases_witness :
  (∃ e, parse_jgw example_strip example_float (take 5 scenario_lines) = Raise e)
  ∧ parse_jgw example_strip example_float (scenario_lines ++ ["x"])
    = Ok (WorldFile 0.0002 0 0 (-0.0002) 13.4 52.5).
Proof.
  pose proof (world_file_parse_cases example_strip example_float None
                (take 5 scenario_lines) [] 1%positive ∅) as [H1 _].
  pose proof (world_file_parse_cases example_strip example_float None
                (scenario_lines ++ ["x"]) [] 1%positive ∅) as [_ H2].
  split.
  - destruct H1 as (e & He & _); [left; vm_compute; lia|]. by exists e.
  - apply H2; [vm_compute; lia|].
    repeat (constructor; [vm_compute; reflexivity|]). constructor.
Defined.

(** ** Polylines and the property dictionaries *)

Lemma collect_points_from (points : list point) (group : list segment) :
  foldl (fun points seg => points ++ endpoints seg) points group
  = points ++ collect_points group.
Proof.
  unfold collect_points. revert points.
  induction group as [ | seg group IH]; intros points; simpl.
  - by rewrite app_nil_r.
  - rewrite IH, (IH (endpoints seg)). by rewrite app_assoc.
Qed.

Lemma collect_points_cons seg group :
  collect_points (seg :: group) = seg.1 :: seg.2 :: collect_points group.
Proof. unfold collect_points at 1. simpl. by rewrite collect_points_from. Qed.

(** The loop over the segments transforms the endpoints one by one, in
    order, by the rule for points. *)
Lemma foldM_transform_segment w tr (l : list segment) acc :
  foldM (transform_segment w tr) acc l
  = match forM (transform_point w tr) (collect_points l) with
    | Ok coords => Ok (acc ++ coords)
    | Raise e => Raise e
    end.
Proof.
  revert acc. induction l as [ | seg l IH]; intros acc.
  - simpl. by rewrite app_nil_r.
  - rewrite collect_points_cons. simpl. unfold transform_segment in *.
    destruct (transform_point w tr seg.1) as [xy1|e]; simpl; [|done].
    destruct (transform_point w tr seg.2) as [xy2|e]; simpl; [|done].
    rewrite IH.
    destruct (forM (transform_point w tr) (collect_points l)) as [cs|e];
      simpl; [|done].
    by rewrite <- app_assoc.
Qed.

Lemma transform_polygons_spec w tr polys (h : gmap loc object) :
  NoDup polys ->
  (∀ poly, poly ∈ polys -> ∃ d, h !! poly = Some (ODict d) ∧ line_value_ok d) ->
  ∃ h',
    transform_polygons w tr polys h = (Ok (), h')
    ∧ (∀ l, l ∉ polys -> h' !! l = h !! l)
    ∧ (∀ poly d, poly ∈ polys -> h !! poly = Some (ODict d) ->
         ∃ d', h' !! poly = Some (ODict d') ∧ transformed_entry w tr d d').
Proof.
  revert h. induction polys as [ | poly rest IH]; intros h Hnd Hok.
  - exists h. simpl. split_and!; [done..|]. set_solver.
  - apply NoDup_cons in Hnd as [Hnotin Hnd].
    destruct (Hok poly) as (d & Hd & Hlv); [set_solver|].
    (* the heap after this entry, and what became of the entry *)
    assert (∃ h1 d1,
              h1 = <[poly := ODict d1]> h ∧ transformed_entry w tr d d1
              ∧ transform_polygons w tr (poly :: rest) h
                = transform_polygons w tr rest h1) as (h1 & d1 & Hh1 & Hent & E).
    { cbn [transform_polygons]. rewrite Hd. unfold line_value_ok in Hlv.
      unfold transformed_entry.
      destruct (d !! "line_value") as [[ | | [ | seg l] | ]| ] eqn:Hlvd;
        try done.
      - exists h, d. by rewrite insert_id.
      - exists h, d. by rewrite insert_id.
      - assert (truthy (VLines (seg :: l)) && is_not_False (VLines (seg :: l))
                = true) as -> by done.
        unfold transform_lines. rewrite foldM_transform_segment.
        destruct (forM_transform_point w tr _ Hlv) as [coords Hcoords].
        rewrite Hcoords. simpl. eexists _, _. split; [reflexivity|].
        split; [|done]. eauto.
      - exists h, d. by rewrite insert_id. }
    rewrite E.
    destruct (IH h1 Hnd) as (h' & Erest & Hframe & Hentries).
    { intros p Hp. rewrite Hh1, lookup_insert_ne by set_solver.
      apply Hok. set_solver. }
    exists h'. split_and!; [done| |].
    + intros l Hl. rewrite Hframe by set_solver.
      rewrite Hh1, lookup_insert_ne; [done|set_solver].
    + intros p dp [->|Hp]%elem_of_cons Hdp.
      * assert (dp = d) as -> by congruence.
        exists d1. split; [|done].
        rewrite Hframe by done. by rewrite Hh1, lookup_insert_eq.
      * apply Hentries; [done|].
        rewrite Hh1, lookup_insert_ne; [done|set_solver].
Qed.

(** What [transform_coordinates] does to the heap, with the new value of a
    path entry given by the rule for points. *)
Lemma transform_coordinates_spec strip parse_float from_crs jgw_lines
    pixel_coordinates polygon_areas (h : gmap loc object) w polys :
  parse_jgw strip parse_float jgw_lines = Ok w ->
  h !! polygon_areas = Some (OList polys) ->
  NoDup polys ->
  (∀ poly, poly ∈ polys -> ∃ d, h !! poly = Some (ODict d) ∧ line_value_ok d) ->
  forallb point_finite pixel_coordinates = true ->
  ∃ geographic_coords h',
    transform_coordinates strip parse_float from_crs jgw_lines
      pixel_coordinates polygon_areas h
    = (Ok (geographic_coords, polygon_areas), h')
    ∧ h' !! polygon_areas = Some (OList polys)
    ∧ (∀ l, l ∉ polys -> h' !! l = h !! l)
    ∧ (∀ poly d, poly ∈ polys -> h !! poly = Some (ODict d) ->
         ∃ d', h' !! poly = Some (ODict d')
               ∧ transformed_entry w (make_transformer from_crs w) d d'
               ∧ ∀ key, key ≠ "line_value" -> d' !! key = d !! key).
Proof.
  intros Hparse Hlist Hnd Hok Hfin.
  destruct (transform_polygons_spec w (make_transformer from_crs w) polys h
              Hnd Hok) as (h' & E & Hframe & Hentries).
  destruct (forM_transform_point w (make_transformer from_crs w) _ Hfin)
    as [geo Hgeo].
  exists geo, h'. unfold transform_coordinates.
  rewrite Hparse, Hlist, E, Hgeo.
  assert (polygon_areas ∉ polys) as Hnotin.
  { intros Hin. destruct (Hok _ Hin) as (d & Hd & _). congruence. }
  split_and!; [done| |done|].
  - by rewrite Hframe.
  - intros poly d Hin Hd. destruct (Hentries poly d Hin Hd) as (d' & Hd' & Hent).
    exists d'. split_and!; [done..|].
    intros key Hkey. unfold transformed_entry in Hent.
    destruct (d !! "line_value") as [[ | | [ | seg l] | ]| ]; subst; try done.
    destruct Hent as (coords & _ & ->). by rewrite lookup_insert_ne.
Qed.

(** The transformed endpoints of the i-th segment are at the positions
    [2 i] and [2 i + 1]. *)
Lemma forM_collect_points {B : Type} (f : point -> result B)
    (l : list segment) (coords : list B) :
  forM f (collect_points l) = Ok coords ->
  length coords = (2 * length l)%nat
  ∧ ∀ i a b, l !! i = Some (a, b) ->
      ∃ ca cb, f a = Ok ca ∧ f b = Ok cb
               ∧ coords !! (2 * i)%nat = Some ca
               ∧ coords !! (2 * i + 1)%nat = Some cb.
Proof.
  revert coords. induction l as [ | seg l IH]; intros coords H.
  - injection H as <-. split; [done|]. by intros i a b Hi.
  - rewrite collect_points_cons in H. simpl in H.
    destruct (f seg.1) as [c1|e] eqn:E1; [|done].
    destruct (f seg.2) as [c2|e] eqn:E2; [|done].
    destruct (forM f (collect_points l)) as [rest|e] eqn:Erest; [|done].
    simpl in H. injection H as <-.
    destruct (IH rest eq_refl) as [Hlen Hat]. split; [simpl; lia|].
    intros [ | i] a b Hi.
    + injection Hi as ->. by exists c1, c2.
    + destruct (Hat i a b Hi) as (ca & cb & Ha & Hb & H1 & H2).
      exists ca, cb. split_and!; [done..| |].
      * by replace (2 * S i)%nat with (S (S (2 * i))) by lia.
      * by replace (2 * S i + 1)%nat with (S (S (2 * i + 1))) by lia.
Qed.

(** The rule for points, written out. *)
Lemma transform_point_spelled w tr p xy :
  transform_point w tr p = Ok xy ->
  ∃ x y X Y,
    float_of_int p.1 = Ok x ∧ float_of_int p.2 = Ok y
    ∧ X = (wf_A w * x + wf_B w * y + wf_C w)%float
    ∧ Y = (wf_D w * x + wf_E w * y + wf_F w)%float
    ∧ xy = match tr with
           | Some transformer => transformer X Y
           | None => (X, Y)
           end.
Proof.
  unfold transform_point. intros H.
  destruct (float_of_int p.1) as [x|e]; [|done].
  destruct (float_of_int p.2) as [y|e]; [|done].
  simpl in H. injection H as <-.
  exists x, y, (wf_A w * x + wf_B w * y + wf_C w)%float,
    (wf_D w * x + wf_E w * y + wf_F w)%float.
  split_and!; [done..|]. by destruct tr.
Qed.

(** C9. [transform_coordinates] returns the very list it was given and
    changes the dictionaries this list refers to in place. An entry whose
    ['line_value'] is a non-empty list of segments gets, under that key, a
    list of twice as many coordinate pairs: for the i-th segment [(a, b)]
    the pair at [2 i] comes from [a] and the pair at [2 i + 1] from [b].
    A point [(px, py)] gives [X = A px + B py + C], [Y = D px + E py + F]
    in binary64, and the pair stored is the transformer applied to
    [(X, Y)] when one is active and [(X, Y)] itself otherwise. Every other
    key of the entry, every entry whose ['line_value'] is [False], empty or
    missing, and every other object are left as they were. *)
Theorem transform_coordinates_in_place strip parse_float from_crs jgw_lines
    pixel_coordinates polygon_areas (h : gmap loc object) w polys :
  parse_jgw strip parse_float jgw_lines = Ok w ->
  h !! polygon_areas = Some (OList polys) ->
  NoDup polys ->
  (∀ poly, poly ∈ polys -> ∃ d, h !! poly = Some (ODict d) ∧ line_value_ok d) ->
  forallb point_finite pixel_coordinates = true ->
  ∃ geographic_coords h',
    transform_coordinates strip parse_float from_crs jgw_lines
      pixel_coordinates polygon_areas h
    = (Ok (geographic_coords, polygon_areas), h')
    ∧ h' !! polygon_areas = Some (OList polys)
    ∧ (∀ l, l ∉ polys -> h' !! l = h !! l)
    ∧ (∀ poly d, poly ∈ polys -> h !! poly = Some (ODict d) ->
         ∃ d', h' !! poly = Some (ODict d')
               ∧ (∀ key, key ≠ "line_value" -> d' !! key = d !! key)
               ∧ match d !! "line_value" with
                 | Some (VLines (seg :: l)) =>
                     ∃ coords,
                       d' !! "line_value" = Some (VCoords coords)
                       ∧ length coords = (2 * length (seg :: l))%nat
                       ∧ ∀ i a b, (seg :: l) !! i = Some (a, b) ->
                           ∀ k p, (k, p) ∈ [((2 * i)%nat, a);
                                            ((2 * i + 1)%nat, b)] ->
                             ∃ x y X Y,
                               float_of_int p.1 = Ok x
                               ∧ float_of_int p.2 = Ok y
                               ∧ X = (wf_A w * x + wf_B w * y + wf_C w)%float
                               ∧ Y = (wf_D w * x + wf_E w * y + wf_F w)%float
                               ∧ coords !! k
                                 = Some match make_transformer from_crs w with
                                        | Some transformer => transformer X Y
                                        | None => (X, Y)
                                        end
                 | _ => d' = d
                 end).
Proof.
  intros Hparse Hlist Hnd Hok Hfin.
  destruct (transform_coordinates_spec strip parse_float from_crs jgw_lines
              pixel_coordinates polygon_areas h w polys
              Hparse Hlist Hnd Hok Hfin)
    as (geo & h' & Hrun & Hlist' & Hframe & Hentries).
  exists geo, h'. split_and!; [done..|].
  intros poly d Hin Hd.
  destruct (Hentries poly d Hin Hd) as (d' & Hd' & Hent & Hkeys).
  exists d'. split_and!; [done..|].
  unfold transformed_entry in Hent.
  destruct (d !! "line_value") as [[ | | [ | seg l] | ]| ]; try done.
  destruct Hent as (coords & Hcoords & ->).
  exists coords. split; [by rewrite lookup_insert_eq|].
  apply forM_collect_points in Hcoords as [Hlen Hat]. split; [done|].
  intros i a b Hi k p Hkp.
  destruct (Hat i a b Hi) as (ca & cb & Ha & Hb & H1 & H2).
  apply elem_of_cons in Hkp as [[= -> ->]|Hkp];
    [|apply list_elem_of_singleton in Hkp as [= -> ->]].
  - destruct (transform_point_spelled _ _ _ _ Ha)
      as (x & y & X & Y & Hx & Hy & HX & HY & ->).
    exists x, y, X, Y. by split_and!.
  - destruct (transform_point_spelled _ _ _ _ Hb)
      as (x & y & X & Y & Hx & Hy & HX & HY & ->).
    exists x, y, X, Y. by split_and!.
Qed.

Lemma transform_coordinates_in_place_witness :
  let h : gmap loc object := example_heap in
  let w := utm_world_file in
  let from_crs := Some example_transformer in
  ∃ geographic_coords h',
    transform_coordinates example_strip example_float from_crs utm_lines
      [(100, 50)] 1%positive h
    = (Ok (geographic_coords, 1%positive), h')
    ∧ h' !! 1%positive = Some (OList [2%positive; 3%positive])
    ∧ (∀ l, l ∉ [2%positive; 3%positive] -> h' !! l = h !! l)
    ∧ (∀ poly d, poly ∈ [2%positive; 3%positive] ->
         h !! poly = Some (ODict d) ->
         ∃ d', h' !! poly = Some (ODict d')
               ∧ (∀ key, key ≠ "line_value" -> d' !! key = d !! key)
               ∧ match d !! "line_value" with
                 | Some (VLines (seg :: l)) =>
                     ∃ coords,
                       d' !! "line_value" = Some (VCoords coords)
                       ∧ length coords = (2 * length (seg :: l))%nat
                       ∧ ∀ i a b, (seg :: l) !! i = Some (a, b) ->
                           ∀ k p, (k, p) ∈ [((2 * i)%nat, a);
                                            ((2 * i + 1)%nat, b)] ->
                             ∃ x y X Y,
                               float_of_int p.1 = Ok x
                               ∧ float_of_int p.2 = Ok y
                               ∧ X = (wf_A w * x + wf_B w * y + wf_C w)%float
                               ∧ Y = (wf_D w * x + wf_E w * y + wf_F w)%float
                               ∧ coords !! k
                                 = Some match make_transformer from_crs w with
                                        | Some transformer => transformer X Y
                                        | None => (X, Y)
                                        end
                 | _ => d' = d
                 end).
Proof.
  apply (transform_coordinates_in_place example_strip example_float
           (Some example_transformer) utm_lines [(100, 50)] 1%positive
           example_heap utm_world_file [2%positive; 3%positive]).
  - vm_compute. reflexivity.
  - vm_compute. reflexivity.
  - apply NoDup_cons. split; [set_solver|]. apply NoDup_singleton.
  - intros poly [->|Hp]%elem_of_cons;
      [|apply list_elem_of_singleton in Hp as ->];
      eexists; (split; [vm_compute; reflexivity|]); vm_compute; done.
  - vm_compute. reflexivity.
Defined.

(** With the transformer active, the stored coordinates are the
    reprojected ones. *)
Example example_heap_reprojected :
  transform_coordinates example_strip example_float
    (Some example_transformer) utm_lines [(100, 50)] 1%positive example_heap
  = (Ok ([(6.501%float, 57.9995%float)], 1%positive),
     {[ 1%positive := OList [2%positive; 3%positive];
        2%positive := ODict {[ "Tree" := VStr "12.5 m2";
                               "line_value" := VFalse ]};
        3%positive := ODict {[ "path" := VStr "0.0 m2";
                               "line_value" :=
                                 VCoords [(6.5%float, 58%float);
                                          (6.5001%float, 58%float);
                                          (6.5001%float, 58%float);
                                          (6.5002%float, 57.99995%float)] ]} ]}).
Proof. by_evaluation. Qed.

Example example_heap_transformed :
  transform_coordinates example_strip example_float None scenario_lines
    [(100, 50)] 1%positive example_heap
  = (Ok ([(13.42%float, 52.49%float)], 1%positive),
     {[ 1%positive := OList [2%positive; 3%positive];
        2%positive := ODict {[ "Tree" := VStr "12.5 m2";
                               "line_value" := VFalse ]};
        3%positive := ODict {[ "path" := VStr "0.0 m2";
                               "line_value" :=
                                 VCoords [(13.4%float, 52.5%float);
                                          (13.402000000000001%float, 52.5%float);
                                          (13.402000000000001%float, 52.5%float);
                                          (13.404%float, 52.499%float)] ]} ]}).
Proof. by_evaluation. Qed.

(** * Further properties *)

(** ** The proximity test as a relation *)

Lemma endpoint_distances_finite_sym a b :
  endpoint_distances_finite a b = endpoint_distances_finite b a.
Proof.
  unfold endpoint_distances_finite.
  rewrite (distance_sym b.1 a.1), (distance_sym b.1 a.2),
    (distance_sym b.2 a.1), (distance_sym b.2 a.2).
  destruct (is_ok (distance a.1 b.1)), (is_ok (distance a.1 b.2)),
    (is_ok (distance a.2 b.1)), (is_ok (distance a.2 b.2)); done.
Qed.

Lemma endpoint_distances_finite_flip a b :
  endpoint_distances_finite (flip a) b = endpoint_distances_finite a b.
Proof.
  unfold endpoint_distances_finite, flip. simpl.
  destruct (is_ok (distance a.1 b.1)), (is_ok (distance a.1 b.2)),
    (is_ok (distance a.2 b.1)), (is_ok (distance a.2 b.2)); done.
Qed.

(** X1. The proximity test does not depend on the order of its two
    segments (when no distance overflows). *)
Theorem are_connected_or_close_symmetric a b threshold :
  endpoint_distances_finite a b = true ->
  are_connected_or_close a b threshold = are_connected_or_close b a threshold.
Proof.
  intros H. pose proof H as G. rewrite endpoint_distances_finite_sym in G.
  destruct (are_connected_or_close_ok a b threshold H)
    as (c1 & c2 & c3 & c4 & E1 & E2 & E3 & E4 & ->).
  destruct (are_connected_or_close_ok b a threshold G)
    as (d1 & d2 & d3 & d4 & F1 & F2 & F3 & F4 & ->).
  rewrite distance_sym in F1, F2, F3, F4.
  assert (d1 = c1) as -> by congruence.
  assert (d2 = c3) as -> by congruence.
  assert (d3 = c2) as -> by congruence.
  assert (d4 = c4) as -> by congruence.
  f_equal.
  destruct (PrimFloat.ltb c1 threshold), (PrimFloat.ltb c2 threshold),
    (PrimFloat.ltb c3 threshold), (PrimFloat.ltb c4 threshold); done.
Qed.

Lemma are_connected_or_close_symmetric_witness :
  endpoint_distances_finite ((0,0),(10,0)) ((13,4),(20,0)) = true
  ∧ are_connected_or_close ((0,0),(10,0)) ((13,4),(20,0)) 5.5
    = are_connected_or_close ((13,4),(20,0)) ((0,0),(10,0)) 5.5.
Proof.
  split; [by_evaluation|].
  apply are_connected_or_close_symmetric. by_evaluation.
Defined.

(** X2. Segments are undirected for the proximity test: exchanging the two
    endpoints of either segment does not change its result (when no
    distance overflows). *)
Theorem are_connected_or_close_undirected a b threshold :
  endpoint_distances_finite a b = true ->
  are_connected_or_close (flip a) b threshold
  = are_connected_or_close a b threshold
  ∧ are_connected_or_close a (flip b) threshold
    = are_connected_or_close a b threshold.
Proof.
  intros H.
  destruct (are_connected_or_close_ok a b threshold H)
    as (c1 & c2 & c3 & c4 & E1 & E2 & E3 & E4 & ->).
  split.
  - assert (endpoint_distances_finite (flip a) b = true) as G
      by by rewrite endpoint_distances_finite_flip.
    destruct (are_connected_or_close_ok (flip a) b threshold G)
      as (d1 & d2 & d3 & d4 & F1 & F2 & F3 & F4 & ->).
    simpl in F1, F2, F3, F4.
    assert (d1 = c3) as -> by congruence.
    assert (d2 = c4) as -> by congruence.
    assert (d3 = c1) as -> by congruence.
    assert (d4 = c2) as -> by congruence.
    f_equal.
    destruct (PrimFloat.ltb c1 threshold), (PrimFloat.ltb c2 threshold),
      (PrimFloat.ltb c3 threshold), (PrimFloat.ltb c4 threshold); done.
  - assert (endpoint_distances_finite a (flip b) = true) as G.
    { rewrite endpoint_distances_finite_sym, endpoint_distances_finite_flip.
      by rewrite endpoint_distances_finite_sym. }
    destruct (are_connected_or_close_ok a (flip b) threshold G)
      as (d1 & d2 & d3 & d4 & F1 & F2 & F3 & F4 & ->).
    simpl in F1, F2, F3, F4.
    assert (d1 = c2) as -> by congruence.
    assert (d2 = c1) as -> by congruence.
    assert (d3 = c4) as -> by congruence.
    assert (d4 = c3) as -> by congruence.
    f_equal.
    destruct (PrimFloat.ltb c1 threshold), (PrimFloat.ltb c2 threshold),
      (PrimFloat.ltb c3 threshold), (PrimFloat.ltb c4 threshold); done.
Qed.

Lemma are_connected_or_close_undirected_witness :
  endpoint_distances_finite ((0,0),(10,0)) ((13,4),(20,0)) = true
  ∧ are_connected_or_close (flip ((0,0),(10,0))) ((13,4),(20,0)) 5.5
    = are_connected_or_close ((0,0),(10,0)) ((13,4),(20,0)) 5.5.
Proof.
  split; [by_evaluation|].
  apply (are_connected_or_close_undirected ((0,0),(10,0)) ((13,4),(20,0))).
  by_evaluation.
Defined.

(** A square root is never below zero, whatever its argument. *)
Lemma binary_round_aux_sign mx ex lx :
  match binary_round_aux prec emax false mx ex lx with
  | S754_zero s | S754_infinity s | S754_finite s _ _ => s = false
  | S754_nan => True
  end.
Proof.
  unfold binary_round_aux.
  destruct (shr_fexp prec emax mx ex lx) as [mrs' e'].
  destruct (shr_fexp prec emax _ e' loc_Exact) as [mrs'' e''].
  destruct (shr_m mrs''); [done| |done].
  by destruct (_ <=? _).
Qed.

Lemma SFsqrt_not_below_zero x t :
  SFltb (SFsqrt prec emax x) t = true -> SFltb (S754_zero false) t = true.
Proof.
  destruct x as [sx|sx| |sx mx ex]; simpl.
  - destruct sx, t as [[]|[]| |[] ? ?]; done.
  - destruct sx, t as [[]|[]| |[] ? ?]; done.
  - done.
  - destruct sx; [done|].
    destruct (SFsqrt_core_binary prec emax (Zpos mx) ex) as [[mz ez] lz].
    pose proof (binary_round_aux_sign mz ez lz) as H.
    destruct (binary_round_aux prec emax false mz ez lz) as [s|s| |s m e];
      try subst s; destruct t as [[]|[]| |[] ? ?]; done.
Qed.

Lemma sqrt_not_below_zero x t :
  PrimFloat.ltb (PrimFloat.sqrt x) t = true -> PrimFloat.ltb 0 t = true.
Proof. rewrite !ltb_spec, sqrt_spec. apply SFsqrt_not_below_zero. Qed.

Lemma closer_needs_positive p q t :
  closer p q t = Ok true -> PrimFloat.ltb 0 t = true.
Proof.
  unfold closer, distance.
  destruct (float_of_int (sum_squares p q)) as [x|e]; simpl; [|done].
  intros [= H]. by eapply sqrt_not_below_zero.
Qed.

Lemma adjacent_needs_positive t a b :
  adjacent t a b -> PrimFloat.ltb 0 t = true.
Proof.
  unfold adjacent, are_connected_or_close, lazy_or.
  destruct (closer a.1 b.1 t) as [[]|] eqn:E1;
    [intros _; by eapply closer_needs_positive| |done].
  destruct (closer a.1 b.2 t) as [[]|] eqn:E2;
    [intros _; by eapply closer_needs_positive| |done].
  destruct (closer a.2 b.1 t) as [[]|] eqn:E3;
    [intros _; by eapply closer_needs_positive| |done].
  apply closer_needs_positive.
Qed.

(** X3. Whatever the coordinates, the proximity test can hold only at a
    threshold above zero, and a segment is connected to itself exactly at
    the thresholds above zero (its first comparison is on distance 0, so
    nothing else is evaluated). *)
Theorem are_connected_or_close_positive_threshold a threshold :
  (∀ b, are_connected_or_close a b threshold = Ok true ->
        PrimFloat.ltb 0 threshold = true)
  ∧ (are_connected_or_close a a threshold = Ok true ↔
     PrimFloat.ltb 0 threshold = true).
Proof.
  split; [intros b; apply adjacent_needs_positive|].
  split; [apply adjacent_needs_positive|].
  intros Hpos. unfold are_connected_or_close, lazy_or, closer.
  rewrite distance_self. simpl. by rewrite Hpos.
Qed.

(** ** More on the groups *)

Lemma distances_finite_subset segments segments' :
  distances_finite segments = true ->
  (∀ s, s ∈ segments' -> s ∈ segments) ->
  distances_finite segments' = true.
Proof.
  intros H Hsub. unfold distances_finite.
  apply forallb_forall. intros a Ha%list_elem_of_In.
  apply forallb_forall. intros b Hb%list_elem_of_In.
  apply (distances_finite_spec segments); auto.
Qed.

Lemma linked_subset segments segments' t a b :
  (∀ s, s ∈ segments -> s ∈ segments') ->
  linked segments t a b -> linked segments' t a b.
Proof.
  intros Hsub H. induction H as [ | x y z [Hy Hxy] _ IH]; [apply rtc_refl|].
  eapply rtc_l; [|exact IH]. split; [by apply Hsub|done].
Qed.

(** X4. The concatenation of the groups is a rearrangement of the distinct
    input segments: repetitions in the input are dropped, nothing else is
    lost or added. *)
Theorem find_groups_keeps_distinct_segments segments threshold :
  distances_finite segments = true ->
  ∃ groups,
    find_groups segments threshold = Ok groups
    ∧ concat groups ≡ₚ remove_dups segments.
Proof.
  intros Hfinite.
  destruct (find_groups_spec segments threshold Hfinite)
    as (groups & E & Hnd & Hall & _).
  exists groups. split; [done|].
  apply NoDup_Permutation; [done|apply NoDup_remove_dups|].
  intros s. by rewrite Hall, elem_of_remove_dups.
Qed.

Lemma find_groups_keeps_distinct_segments_witness :
  let segments := [((0,0),(10,0)); ((10,0),(20,0)); ((100,0),(120,0));
                   ((10,0),(20,0))] in
  ∃ groups,
    find_groups segments 5 = Ok groups
    ∧ concat groups ≡ₚ remove_dups segments.
Proof.
  apply find_groups_keeps_distinct_segments. by_evaluation.
Defined.

(** X5. The grouping depends only on which segments occur in the input,
    not on their order or on repetitions: two inputs with the same
    segments put the same pairs of segments together. *)
Theorem find_groups_order_independent segments segments' threshold :
  distances_finite segments = true ->
  (∀ s, s ∈ segments ↔ s ∈ segments') ->
  ∃ groups groups',
    find_groups segments threshold = Ok groups
    ∧ find_groups segments' threshold = Ok groups'
    ∧ ∀ a b, same_group groups a b ↔ same_group groups' a b.
Proof.
  intros Hfinite Hsame.
  assert (distances_finite segments' = true) as Hfinite'.
  { apply (distances_finite_subset segments); [done|]. intros s. apply Hsame. }
  destruct (find_groups_spec segments threshold Hfinite)
    as (groups & E & _ & Hall & Hcomp).
  destruct (find_groups_spec segments' threshold Hfinite')
    as (groups' & E' & _ & Hall' & Hcomp').
  exists groups, groups'. split_and!; [done..|].
  assert (∀ (gs : list (list segment)) (segs : list segment),
            (∀ s, s ∈ concat gs ↔ s ∈ segs) ->
            ∀ a b, same_group gs a b -> a ∈ segs ∧ b ∈ segs) as Hin.
  { intros gs segs H a b (g & Hg & Ha & Hb).
    split; apply H, elem_of_concat; eauto. }
  intros a b. split; intros Hab.
  - destruct (Hin _ _ Hall a b Hab) as [Ha Hb].
    apply (find_groups_same_group segments' threshold);
      [done..|by apply Hsame|by apply Hsame|].
    apply (linked_subset segments); [intros s; apply Hsame|].
    by apply (find_groups_same_group segments threshold groups).
  - destruct (Hin _ _ Hall' a b Hab) as [Ha Hb].
    apply (find_groups_same_group segments threshold);
      [done..|by apply Hsame|by apply Hsame|].
    apply (linked_subset segments'); [intros s; apply Hsame|].
    by apply (find_groups_same_group segments' threshold groups').
Qed.

Lemma find_groups_order_independent_witness :
  let segments := [((0,0),(10,0)); ((13,0),(20,0)); ((30,0),(40,0))] in
  let segments' := [((30,0),(40,0)); ((0,0),(10,0)); ((13,0),(20,0));
                    ((0,0),(10,0))] in
  ∃ groups groups',
    find_groups segments 5 = Ok groups
    ∧ find_groups segments' 5 = Ok groups'
    ∧ ∀ a b, same_group groups a b ↔ same_group groups' a b.
Proof.
  apply find_groups_order_independent; [by_evaluation|].
  intros s. rewrite !elem_of_cons, !elem_of_nil. tauto.
Defined.

Lemma linked_nothing_adjacent segments t a b :
  PrimFloat.ltb 0 t = false -> linked segments t a b -> a = b.
Proof.
  intros Ht H. induction H as [ | x y z [_ Hxy] _ IH]; [done|].
  apply adjacent_needs_positive in Hxy. congruence.
Qed.

(** X6. At a threshold that is not above zero (zero, negative or NaN)
    nothing is connected: every group holds one segment, and there are as
    many groups as distinct input segments. *)
Theorem find_groups_nonpositive_threshold segments threshold :
  distances_finite segments = true ->
  PrimFloat.ltb 0 threshold = false ->
  ∃ groups,
    find_groups segments threshold = Ok groups
    ∧ Forall (fun g => ∃ s, g = [s]) groups
    ∧ length groups = length (remove_dups segments).
Proof.
  intros Hfinite Ht.
  destruct (find_groups_spec segments threshold Hfinite)
    as (groups & E & Hnd & Hall & Hcomp).
  exists groups. split; [done|].
  assert (Forall (fun g => ∃ s, g = [s]) groups) as Hsingle.
  { pose proof (find_groups_partitions _ _ _ Hnd Hall Hcomp) as [_ Hpart].
    rewrite Forall_forall in Hcomp |- *. intros g Hg.
    destruct (Hpart g Hg) as (Hgnd & _ & _).
    destruct (Hcomp g Hg) as (Hne & Hc).
    destruct g as [ | s [ | s' g]]; [done|by exists s|].
    exfalso. destruct (Hc s) as (_ & Hs); [set_solver|].
    assert (s = s') as <-.
    { apply (linked_nothing_adjacent segments threshold); [done|].
      apply Hs. set_solver. }
    apply NoDup_cons in Hgnd as [Hgnd _]. set_solver. }
  split; [done|].
  assert (length (concat groups) = length groups) as <-.
  { clear -Hsingle. induction Hsingle as [ | g gs [s ->] _ IH]; [done|].
    simpl. by rewrite IH. }
  apply Permutation_length.
  apply NoDup_Permutation; [done|apply NoDup_remove_dups|].
  intros s. by rewrite Hall, elem_of_remove_dups.
Qed.

Lemma find_groups_nonpositive_threshold_witness :
  let segments := [((0,0),(10,0)); ((10,0),(20,0)); ((10,0),(20,0))] in
  ∃ groups,
    find_groups segments 0 = Ok groups
    ∧ Forall (fun g => ∃ s, g = [s]) groups
    ∧ length groups = length (remove_dups segments).
Proof.
  apply find_groups_nonpositive_threshold; by_evaluation.
Defined.

(** The loops only ever append to the group. *)
Lemma scan_extends_group t cur l st st' :
  scan t cur l st = Ok st' -> ∃ more, group st' = group st ++ more.
Proof.
  revert st. induction l as [ | seg rest IH]; intros st; simpl.
  - intros [= <-]. exists []. by rewrite app_nil_r.
  - destruct (decide (seg ∈ visited st)); [apply IH|].
    destruct (are_connected_or_close cur seg t) as [[]|e]; simpl; [|apply IH|done].
    intros (more & ->)%IH. simpl. exists (seg :: more). by rewrite <- app_assoc.
Qed.

Lemma drain_extends_group fuel t segments st st' :
  drain fuel t segments st = Ok st' -> ∃ more, group st' = group st ++ more.
Proof.
  revert st. induction fuel as [ | fuel IH]; intros st; simpl.
  - destruct (queue st); [|done]. intros [= <-]. exists []. by rewrite app_nil_r.
  - destruct (queue st) as [ | cur q] eqn:Hq.
    { intros [= <-]. exists []. by rewrite app_nil_r. }
    destruct (scan t cur segments _) as [st1|e] eqn:Hscan; simpl; [|done].
    apply scan_extends_group in Hscan as (more1 & Hmore1). simpl in Hmore1.
    intros (more2 & ->)%IH. rewrite Hmore1.
    exists (more1 ++ more2). by rewrite app_assoc.
Qed.

Lemma collect_seeds fuel t segments todo seen groups groups' :
  collect fuel t segments todo seen groups = Ok groups' ->
  ∃ new seeds,
    groups' = groups ++ new
    ∧ seeds `sublist_of` todo
    ∧ Forall2 (fun g s => head g = Some s) new seeds
    ∧ ∀ s rest, todo = s :: rest -> s ∉ seen -> head seeds = Some s.
Proof.
  revert seen groups. induction todo as [ | seg rest IH]; intros seen groups;
    simpl.
  - intros [= <-]. exists [], []. rewrite app_nil_r.
    split_and!; [done|done|constructor|done].
  - destruct (decide (seg ∈ seen)) as [Hin|Hin].
    + intros (new & seeds & -> & Hsub & Hheads & _)%IH.
      exists new, seeds. split_and!; [done|by apply sublist_cons|done|].
      by intros s r [= -> ->].
    + destruct (drain fuel t segments _) as [st|e] eqn:Hdrain; simpl; [|done].
      apply drain_extends_group in Hdrain as (more & Hmore). simpl in Hmore.
      intros (new & seeds & -> & Hsub & Hheads & _)%IH.
      exists (group st :: new), (seg :: seeds).
      split_and!.
      * by rewrite <- app_assoc.
      * by apply sublist_skip.
      * constructor; [by rewrite Hmore|done].
      * by intros s r [= -> ->].
Qed.

(** X7. Groups come in the order in which their first segment occurs in
    the input: the first segments of the groups form a subsequence of the
    input, and the first group starts with the first input segment. *)
Theorem find_groups_order_of_discovery segments threshold groups :
  find_groups segments threshold = Ok groups ->
  ∃ seeds,
    seeds `sublist_of` segments
    ∧ Forall2 (fun g s => head g = Some s) groups seeds
    ∧ head seeds = head segments.
Proof.
  unfold find_groups.
  intros (new & seeds & -> & Hsub & Hheads & Hfirst)%collect_seeds.
  exists seeds. split_and!; [done..|].
  destruct segments as [ | s rest].
  - by apply sublist_nil_r in Hsub as ->.
  - by apply (Hfirst s rest).
Qed.

Lemma find_groups_order_of_discovery_witness :
  ∃ seeds,
    seeds `sublist_of` [((30,0),(40,0)); ((0,0),(10,0)); ((13,0),(20,0))]
    ∧ Forall2 (fun g s => head g = Some s)
        [[((30,0),(40,0))]; [((0,0),(10,0)); ((13,0),(20,0))]] seeds
    ∧ head seeds = Some ((30,0),(40,0)).
Proof.
  apply (find_groups_order_of_discovery
           [((30,0),(40,0)); ((0,0),(10,0)); ((13,0),(20,0))] 5).
  by_evaluation.
Defined.

(** ** More on the zigzag filter *)

Lemma foldM_seq_invariant {A : Type} (I : nat -> A -> Prop)
    (f : A -> nat -> result A) (start len : nat) (a : A) :
  I start a ->
  (∀ i a, (start <= i < start + len)%nat -> I i a ->
          ∃ a', f a i = Ok a' ∧ I (S i) a') ->
  ∃ a', foldM f a (seq start len) = Ok a' ∧ I (start + len)%nat a'.
Proof.
  revert start a. induction len as [ | len IH]; intros start a Ha Hstep; simpl.
  - exists a. by rewrite Nat.add_0_r.
  - destruct (Hstep start a) as (a' & -> & Ha'); [lia|done|]. simpl.
    replace (start + S len)%nat with (S start + len)%nat by lia.
    apply IH; [done|]. intros i b Hi. apply Hstep. lia.
Qed.

Lemma zigzag_step_shape atan2 points tolerance filtered_points i out :
  zigzag_step atan2 points tolerance filtered_points i = Ok out ->
  ∃ cur, points !! i = Some cur
         ∧ (out = filtered_points ∨ out = filtered_points ++ [cur]).
Proof.
  unfold zigzag_step.
  destruct (last filtered_points) as [prev| ]; [|done]. simpl.
  destruct (points !! i) as [cur| ]; [|done]. simpl.
  destruct (points !! (i + 1)%nat) as [next| ]; [|done]. simpl.
  destruct (predict_direction atan2 prev cur) as [dp|e]; [|done]. simpl.
  destruct (predict_direction atan2 cur next) as [dn|e]; [|done]. simpl.
  intros [= <-]. exists cur. split; [done|].
  destruct (within_tolerance dp dn tolerance); auto.
Qed.

(** X8. The zigzag filter only removes points: its output is a
    subsequence of its input (no point is added, moved or changed), so it
    is never longer than the input. *)
Theorem filter_zigzag_subsequence atan2 points tolerance :
  directions_finite points = true ->
  ∃ out,
    filter_zigzag atan2 points tolerance = Ok out
    ∧ out `sublist_of` points
    ∧ (length out <= length points)%nat.
Proof.
  intros Hfin.
  enough (∃ out, filter_zigzag atan2 points tolerance = Ok out
                 ∧ out `sublist_of` points) as (out & E & Hsub).
  { exists out. split_and!; [done..|]. by apply sublist_length. }
  unfold filter_zigzag.
  destruct (Nat.ltb_spec (length points) 3) as [Hlen|Hlen]; [by exists points|].
  destruct (lookup_lt_is_Some_2 points 0) as [first_point H0]; [lia|].
  destruct (last points) as [last_point| ] eqn:Hlast;
    [|apply last_None in Hlast; subst; simpl in Hlen; lia].
  rewrite H0. simpl.
  destruct (foldM_seq_invariant
              (fun i filtered =>
                 zigzag_inv atan2 points tolerance first_point filtered
                 ∧ filtered `sublist_of` take i points)
              (zigzag_step atan2 points tolerance) 1 (length points - 2)
              [first_point]) as (filtered & -> & _ & Hsub).
  { split.
    - split_and!; [done| |].
      + intros p ->%list_elem_of_singleton. by eapply list_elem_of_lookup_2.
      + intros j prev cur _ Hc. by destruct j.
    - destruct points; [done|]. simpl in *. injection H0 as ->.
      rewrite take_0. done. }
  { intros i filtered Hi [Hinv Hsub].
    destruct (zigzag_step_spec atan2 points tolerance first_point filtered i)
      as (filtered' & E & Hinv'); [done|lia..|done|].
    exists filtered'. split; [done|]. split; [done|].
    apply zigzag_step_shape in E as (cur & Hcur & [->| ->]).
    - rewrite (take_S_r _ _ _ Hcur). by apply sublist_inserts_r.
    - rewrite (take_S_r _ _ _ Hcur). by apply sublist_app. }
  simpl. eexists. split; [reflexivity|].
  rewrite last_lookup in Hlast.
  replace (1 + (length points - 2))%nat with (pred (length points)) in Hsub
    by lia.
  assert (drop (pred (length points)) points = [last_point]) as Hdrop.
  { rewrite (drop_S _ _ _ Hlast), drop_ge by lia. done. }
  pose proof (take_drop (pred (length points)) points) as Hsplit.
  rewrite Hdrop in Hsplit. rewrite <- Hsplit.
  by apply sublist_app.
Qed.

Lemma filter_zigzag_subsequence_witness :
  let points : list point := [(0,0); (10,1); (20,0); (30,1)] in
  let atan2 : float -> float -> float := fun y x => (y / x)%float in
  ∃ out,
    filter_zigzag atan2 points 50 = Ok out
    ∧ out `sublist_of` points
    ∧ (length out <= length points)%nat.
Proof.
  apply (filter_zigzag_subsequence
           (fun y x => (y / x)%float) [(0,0); (10,1); (20,0); (30,1)] 50).
  by_evaluation.
Defined.

(** ** Shaping a group into a path *)

#[export] Instance key_le_total : Total key_le.
Proof. intros p q. unfold key_le. lia. Qed.

#[export] Instance key_le_trans : Transitive key_le.
Proof. intros p q r. unfold key_le. lia. Qed.

#[export] Instance key_le_antisym : AntiSymm (=) key_le.
Proof.
  intros [p1 p2] [q1 q2]. unfold key_le. simpl. intros H1 H2.
  f_equal; lia.
Qed.

(** [sort_points] returns the sorted rearrangement of its input, and there
    is no other. *)
Lemma sort_points_spec points :
  StronglySorted key_le (sort_points points)
  ∧ sort_points points ≡ₚ points
  ∧ ∀ l, Sorted key_le l -> l ≡ₚ points -> l = sort_points points.
Proof.
  unfold sort_points. split_and!.
  - apply StronglySorted_merge_sort; apply _.
  - apply merge_sort_Permutation.
  - intros l Hl Hp. apply (Sorted_unique key_le); [done| |].
    + apply Sorted_merge_sort. apply _.
    + by rewrite merge_sort_Permutation.
Qed.

Lemma StronglySorted_last_max (l : list point) z :
  StronglySorted key_le l -> last l = Some z -> ∀ p, p ∈ l -> key_le p z.
Proof.
  induction 1 as [ | x l Hl IH Hx]; [done|].
  intros Hlast p Hp. destruct l as [ | y l].
  - injection Hlast as <-. apply list_elem_of_singleton in Hp as ->.
    unfold key_le. lia.
  - change (last (x :: y :: l)) with (last (y :: l)) in Hlast.
    apply elem_of_cons in Hp as [->|Hp]; [|by apply IH].
    rewrite Forall_forall in Hx. apply Hx.
    rewrite last_lookup in Hlast. by eapply list_elem_of_lookup_2.
Qed.

Lemma StronglySorted_head_min (l : list point) z :
  StronglySorted key_le l -> head l = Some z -> ∀ p, p ∈ l -> key_le z p.
Proof.
  destruct 1 as [ | x l Hl Hx]; [done|]. intros [= ->] p.
  intros [->|Hp]%elem_of_cons; [unfold key_le; lia|].
  rewrite Forall_forall in Hx. by apply Hx.
Qed.

Lemma elem_of_collect_points p group :
  p ∈ collect_points group ↔ ∃ seg, seg ∈ group ∧ p ∈ endpoints seg.
Proof.
  induction group as [ | seg group IH].
  - unfold collect_points. simpl. set_solver.
  - rewrite collect_points_cons, !elem_of_cons, IH. unfold endpoints.
    split.
    + intros [->|[->|(s & Hs & Hp)]].
      * exists seg. set_solver.
      * exists seg. set_solver.
      * exists s. set_solver.
    + intros (s & [->|Hs]%elem_of_cons & Hp); [set_solver|].
      right. right. eauto.
Qed.

Lemma length_collect_points group :
  length (collect_points group) = (2 * length group)%nat.
Proof.
  induction group as [ | seg group IH]; [done|].
  rewrite collect_points_cons. simpl. rewrite IH. lia.
Qed.

(** The filter keeps the two ends of any non-empty input. *)
Lemma filter_zigzag_ends atan2 points tolerance :
  directions_finite points = true ->
  ∃ out,
    filter_zigzag atan2 points tolerance = Ok out
    ∧ (points ≠ [] -> head out = head points ∧ last out = last points).
Proof.
  intros Hfin. unfold filter_zigzag.
  destruct (Nat.ltb_spec (length points) 3) as [Hlen|Hlen]; [by exists points|].
  destruct (lookup_lt_is_Some_2 points 0) as [first_point H0]; [lia|].
  destruct (last points) as [last_point| ] eqn:Hlast;
    [|apply last_None in Hlast; subst; simpl in Hlen; lia].
  rewrite H0. simpl.
  destruct (foldM_invariant
              (zigzag_inv atan2 points tolerance first_point)
              (zigzag_step atan2 points tolerance)
              (seq 1 (length points - 2)) [first_point])
    as (filtered & -> & Hhd & _).
  { split_and!; [done| |].
    - intros p ->%list_elem_of_singleton. by eapply list_elem_of_lookup_2.
    - intros j prev cur _ Hc. by destruct j. }
  { intros a i Hi%elem_of_seq Ha. apply zigzag_step_spec; [done|lia..|done]. }
  simpl. eexists. split; [reflexivity|]. intros _. split.
  - destruct points; [done|]. simpl in H0. injection H0 as ->.
    by destruct filtered.
  - by rewrite last_snoc.
Qed.

(** X9. Shaping starts and ends at the extreme endpoints: for a non-empty
    group with pixel coordinates, collecting, sorting and filtering its
    endpoints returns a list whose first point is the least and whose last
    point is the greatest endpoint of the group in the order by (x, y). *)
Theorem path_between_extreme_endpoints atan2 group tolerance :
  group ≠ [] ->
  Forall (fun seg => in_pixel_range seg.1 ∧ in_pixel_range seg.2) group ->
  ∃ filtered_points first_point last_point,
    filter_zigzag atan2 (sort_points (collect_points group)) tolerance
    = Ok filtered_points
    ∧ head filtered_points = Some first_point
    ∧ last filtered_points = Some last_point
    ∧ first_point ∈ collect_points group
    ∧ last_point ∈ collect_points group
    ∧ ∀ p, p ∈ collect_points group ->
           key_le first_point p ∧ key_le p last_point.
Proof.
  intros Hne Hrange.
  destruct (sort_points_spec (collect_points group)) as (Hsorted & Hperm & _).
  set (sorted := sort_points (collect_points group)) in *.
  assert (sorted ≠ []) as Hsne.
  { intros E. rewrite E in Hperm. apply Permutation_nil_l in Hperm.
    pose proof (length_collect_points group) as Hl. rewrite <- Hperm in Hl.
    destruct group; [done|simpl in Hl; lia]. }
  assert (directions_finite sorted = true) as Hfin.
  { apply directions_finite_in_pixel_range. rewrite Forall_forall.
    intros p Hp. rewrite Hperm in Hp.
    apply elem_of_collect_points in Hp as (seg & Hseg & Hp).
    rewrite Forall_forall in Hrange. destruct (Hrange seg Hseg).
    unfold endpoints in Hp.
    apply elem_of_cons in Hp as [->|Hp]; [done|].
    by apply list_elem_of_singleton in Hp as ->. }
  destruct (filter_zigzag_ends atan2 sorted tolerance Hfin)
    as (out & E & Hends).
  destruct (Hends Hsne) as [Hhd Hlast].
  destruct (head sorted) as [first_point| ] eqn:Hh;
    [|by destruct sorted].
  destruct (last sorted) as [last_point| ] eqn:Hl;
    [|by apply last_None in Hl].
  exists out, first_point, last_point. split_and!; [done..| | |].
  - rewrite <- Hperm. by apply head_Some_elem_of.
  - rewrite <- Hperm. rewrite last_lookup in Hl.
    by eapply list_elem_of_lookup_2.
  - intros p Hp. rewrite <- Hperm in Hp. split.
    + by apply (StronglySorted_head_min sorted).
    + by apply (StronglySorted_last_max sorted).
Qed.

Lemma path_between_extreme_endpoints_witness :
  let group : list segment := [((20,3),(10,0)); ((0,5),(10,0))] in
  let atan2 : float -> float -> float := fun y x => (y / x)%float in
  ∃ filtered_points first_point last_point,
    filter_zigzag atan2 (sort_points (collect_points group)) 50
    = Ok filtered_points
    ∧ head filtered_points = Some first_point
    ∧ last filtered_points = Some last_point
    ∧ first_point ∈ collect_points group
    ∧ last_point ∈ collect_points group
    ∧ ∀ p, p ∈ collect_points group ->
           key_le first_point p ∧ key_le p last_point.
Proof.
  apply (path_between_extreme_endpoints (fun y x => (y / x)%float)
           [((20,3),(10,0)); ((0,5),(10,0))] 50); [done|].
  repeat constructor; simpl; lia.
Defined.

Example sort_points_example :
  sort_points [(3,1); (1,2); (-4,7); (1,1); (1,2)]
  = [(-4,7); (1,1); (1,2); (1,2); (3,1)].
Proof. by_evaluation. Qed.

Lemma forM_ok {A B : Type} (f : A -> result B) (l : list A) :
  (∀ a, a ∈ l -> ∃ b, f a = Ok b) -> ∃ out, forM f l = Ok out.
Proof.
  induction l as [ | a l IH]; intros H; simpl; [eauto|].
  destruct (H a) as [b ->]; [set_solver|].
  destruct IH as [out ->]; [intros x Hx; apply H; set_solver|].
  simpl. eauto.
Qed.

(** X10. The line segments built from a point list form one connected
    polyline: the loop never raises, yields one segment less than there
    are points (none for fewer than two points), the i-th segment joins
    the i-th point to the next one, and so each segment ends where the
    next one starts. *)
Theorem line_list_is_polyline (smooth_points : list point) :
  ∃ lines,
    line_list smooth_points = Ok lines
    ∧ length lines = (length smooth_points - 1)%nat
    ∧ (∀ i seg, lines !! i = Some seg ->
         smooth_points !! i = Some seg.1
         ∧ smooth_points !! (i + 1)%nat = Some seg.2)
    ∧ (∀ i seg seg', lines !! i = Some seg ->
         lines !! (i + 1)%nat = Some seg' -> seg.2 = seg'.1).
Proof.
  unfold line_list.
  set (f := fun i : nat =>
              start ← index (smooth_points !! i);
              end_ ← index (smooth_points !! (i + 1)%nat);
              Ok (start, end_)).
  destruct (forM_ok f (seq 0 (length smooth_points - 1))) as [lines E].
  { intros i Hi%elem_of_seq. unfold f.
    destruct (lookup_lt_is_Some_2 smooth_points i) as [p ->]; [lia|].
    destruct (lookup_lt_is_Some_2 smooth_points (i + 1)) as [q ->]; [lia|].
    simpl. eauto. }
  exists lines. split; [done|].
  apply forM_Forall2 in E.
  assert (∀ i seg, lines !! i = Some seg ->
            smooth_points !! i = Some seg.1
            ∧ smooth_points !! (i + 1)%nat = Some seg.2) as Hseg.
  { intros i seg Hi.
    destruct (Forall2_lookup_r _ _ _ i seg E Hi) as (j & Hj & Hf).
    apply lookup_seq in Hj as [-> _]. simpl in Hf. unfold f in Hf.
    destruct (smooth_points !! i) as [p| ]; [|done].
    destruct (smooth_points !! (i + 1)%nat) as [q| ]; [|done].
    simpl in Hf. by injection Hf as <-. }
  split_and!.
  - apply Forall2_length in E. by rewrite length_seq in E.
  - exact Hseg.
  - intros i seg seg' Hi Hi'.
    destruct (Hseg i seg Hi) as [_ H1]. destruct (Hseg (i + 1)%nat seg' Hi') as [H2 _].
    congruence.
Qed.

Example line_list_example :
  line_list [(0,0); (4,1); (9,1)] = Ok [((0,0),(4,1)); ((4,1),(9,1))]
  ∧ line_list [(7,7)] = Ok [] ∧ line_list [] = Ok [].
Proof. repeat split; by_evaluation. Qed.

(** ** Writing and reading a world file *)

(** X11. A world file written by [create_jgw_from_tiff] is read back by
    [transform_coordinates] with the same six coefficients in the same
    roles (the writer and the reader agree on the line order A, D, B, E, C,
    F), provided each coefficient's text reads back as that number. *)
Theorem created_jgw_reads_back lower format_float to_wgs84 strip parse_float
    r w :
  jgw_coefficients lower to_wgs84 r = Ok w ->
  Forall (fun x => parse_float (strip (format_float x +:+ newline)) = Some x)
    [wf_A w; wf_D w; wf_B w; wf_E w; wf_C w; wf_F w] ->
  ∃ jgw_lines,
    create_jgw_from_tiff lower format_float to_wgs84 r = Ok jgw_lines
    ∧ length jgw_lines = 6%nat
    ∧ parse_jgw strip parse_float jgw_lines = Ok w.
Proof.
  intros Hw Hread. unfold create_jgw_from_tiff. rewrite Hw. simpl.
  eexists. split_and!; [reflexivity|done|].
  apply parse_jgw_Ok. split; [|simpl; lia]. simpl.
  repeat match goal with
         | H : Forall _ (_ :: _) |- _ => apply Forall_cons in H as [? H]
         end.
  repeat (constructor; [done|]). constructor.
Qed.

Lemma created_jgw_reads_back_witness :
  let r := Raster scenario_world_file None in
  let to_wgs84 : crs_info -> result transformer := fun _ => Raise ValueError in
  ∃ jgw_lines,
    create_jgw_from_tiff (fun s => s) example_format to_wgs84 r = Ok jgw_lines
    ∧ length jgw_lines = 6%nat
    ∧ parse_jgw example_strip example_float jgw_lines = Ok scenario_world_file.
Proof.
  apply (created_jgw_reads_back (fun s => s) example_format
           (fun _ => Raise ValueError) example_strip example_float
           (Raster scenario_world_file None) scenario_world_file).
  - reflexivity.
  - repeat (constructor; [by_evaluation|]). constructor.
Defined.

(** ** Calling the transformation again *)

Lemma transform_polygons_settled w tr polys (h : gmap loc object) :
  (∀ poly, poly ∈ polys ->
     ∃ d, h !! poly = Some (ODict d) ∧ line_value_settled d) ->
  (holds_coords h polys ->
   transform_polygons w tr polys h = (Raise TypeError, h))
  ∧ (¬ holds_coords h polys -> transform_polygons w tr polys h = (Ok (), h)).
Proof.
  induction polys as [ | poly rest IH]; intros Hall.
  - split; [|done]. intros (poly & d & c & cs & Hin & _). set_solver.
  - destruct (Hall poly) as (d & Hd & Hset); [set_solver|].
    destruct IH as [IHc IHn]; [intros q Hq; apply Hall; set_solver|].
    assert (∀ v, d !! "line_value" = v ->
              match v with Some (VCoords (_ :: _)) => False | _ => True end ->
              holds_coords h (poly :: rest) ↔ holds_coords h rest) as Hskip.
    { intros v Hv Hnot. split.
      - intros (q & dq & c & cs & [->|Hq]%elem_of_cons & Hdq & Hlv).
        + assert (dq = d) as -> by congruence. rewrite Hlv in Hv. by subst v.
        + by exists q, dq, c, cs.
      - intros (q & dq & c & cs & Hq & Hdq & Hlv).
        exists q, dq, c, cs. split; [set_solver|done]. }
    cbn [transform_polygons]. rewrite Hd. unfold line_value_settled in Hset.
    destruct (d !! "line_value") as [[ | | [ | seg l] | [ | c cs]]| ] eqn:Hlv;
      try done; simpl;
      try (specialize (Hskip _ eq_refl I); rewrite Hskip; by split).
    split; [done|]. intros Hno. exfalso. apply Hno.
    exists poly, d, c, cs. split; [set_solver|done].
Qed.

(** X13. [transform_coordinates] is not repeatable on a list that holds a
    path: after a successful call, the same call on the same list raises
    [TypeError] (the stored coordinates are read as segments) and changes
    nothing; on a list without paths the second call returns what the first
    returned and changes nothing. *)
Theorem transform_coordinates_again strip parse_float from_crs jgw_lines
    pixel_coordinates polygon_areas (h : gmap loc object) w polys :
  parse_jgw strip parse_float jgw_lines = Ok w ->
  h !! polygon_areas = Some (OList polys) ->
  NoDup polys ->
  (∀ poly, poly ∈ polys -> ∃ d, h !! poly = Some (ODict d) ∧ line_value_ok d) ->
  forallb point_finite pixel_coordinates = true ->
  ∃ geographic_coords h',
    transform_coordinates strip parse_float from_crs jgw_lines
      pixel_coordinates polygon_areas h
    = (Ok (geographic_coords, polygon_areas), h')
    ∧ (holds_path h polys ->
       transform_coordinates strip parse_float from_crs jgw_lines
         pixel_coordinates polygon_areas h'
       = (Raise TypeError, h'))
    ∧ (¬ holds_path h polys ->
       h' = h
       ∧ transform_coordinates strip parse_float from_crs jgw_lines
           pixel_coordinates polygon_areas h'
         = (Ok (geographic_coords, polygon_areas), h')).
Proof.
  intros Hparse Hlist Hnd Hok Hfin.
  destruct (transform_polygons_spec w (make_transformer from_crs w) polys h
              Hnd Hok) as (h' & E & Hframe & Hentries).
  destruct (forM_transform_point w (make_transformer from_crs w) _ Hfin)
    as [geo Hgeo].
  assert (polygon_areas ∉ polys) as Hnotin.
  { intros Hin. destruct (Hok _ Hin) as (d & Hd & _). congruence. }
  assert (h' !! polygon_areas = Some (OList polys)) as Hlist'
    by by rewrite Hframe.
  (* what the first call left in each entry *)
  assert (∀ poly, poly ∈ polys ->
            ∃ d d', h !! poly = Some (ODict d) ∧ h' !! poly = Some (ODict d')
                    ∧ line_value_settled d'
                    ∧ ((∃ c cs, d' !! "line_value" = Some (VCoords (c :: cs)))
                       ↔ ∃ seg l, d !! "line_value" = Some (VLines (seg :: l))))
    as Hafter.
  { intros poly Hin. destruct (Hok _ Hin) as (d & Hd & Hlv).
    destruct (Hentries poly d Hin Hd) as (d' & Hd' & Hent).
    exists d, d'. split_and!; [done..| |].
    - unfold transformed_entry, line_value_ok, line_value_settled in *.
      destruct (d !! "line_value") as [[ | | [ | seg l] | ]| ] eqn:Hdl;
        try done; subst; rewrite ?Hdl; try done.
      destruct Hent as (coords & _ & ->). by rewrite lookup_insert_eq.
    - unfold transformed_entry, line_value_ok in *.
      destruct (d !! "line_value") as [[ | | [ | seg l] | ]| ] eqn:Hdl;
        try done; subst; rewrite ?Hdl;
        try (split; [by intros (? & ? & ?)|by intros (? & ? & ?)]).
      destruct Hent as (coords & Hcoords & ->). rewrite lookup_insert_eq.
      split; [eauto|]. intros _.
      apply forM_Forall2, Forall2_length in Hcoords.
      rewrite length_collect_points in Hcoords.
      destruct coords as [ | c cs]; [simpl in Hcoords; lia|eauto]. }
  assert (holds_coords h' polys ↔ holds_path h polys) as Hiff.
  { split.
    - intros (poly & d' & c & cs & Hin & Hd' & Hlv).
      destruct (Hafter _ Hin) as (d & d'' & Hd & Hd'' & _ & Hc).
      assert (d'' = d') as -> by congruence.
      destruct Hc as [Hc _]. destruct Hc as (seg & l & Hdl); [eauto|].
      by exists poly, d, seg, l.
    - intros (poly & d & seg & l & Hin & Hd & Hlv).
      destruct (Hafter _ Hin) as (d0 & d' & Hd0 & Hd' & _ & Hc).
      assert (d0 = d) as -> by congruence.
      destruct Hc as [_ Hc]. destruct Hc as (c & cs & Hdl); [eauto|].
      by exists poly, d', c, cs. }
  destruct (transform_polygons_settled w (make_transformer from_crs w) polys h')
    as [Hraise Hquiet].
  { intros poly Hin. destruct (Hafter _ Hin) as (d & d' & _ & Hd' & Hs & _).
    eauto. }
  exists geo, h'. unfold transform_coordinates.
  rewrite Hparse, Hlist, E, Hgeo, Hlist'. split_and!; [done| |].
  - intros Hpath. by rewrite Hraise by by apply Hiff.
  - intros Hno. rewrite Hquiet by by rewrite Hiff.
    split; [|done].
    apply map_eq. intros l. destruct (decide (l ∈ polys)) as [Hin|Hout];
      [|by apply Hframe].
    destruct (Hok _ Hin) as (d & Hd & Hlv).
    destruct (Hentries l d Hin Hd) as (d' & Hd' & Hent).
    rewrite Hd, Hd'. unfold transformed_entry in Hent.
    destruct (d !! "line_value") as [[ | | [ | seg sl] | ]| ] eqn:Hdl;
      try by subst.
    exfalso. apply Hno. by exists l, d, seg, sl.
Qed.

Lemma transform_coordinates_again_witness :
  ∃ geographic_coords h',
    transform_coordinates example_strip example_float None scenario_lines
      [(100, 50)] 1%positive example_heap
    = (Ok (geographic_coords, 1%positive), h')
    ∧ (holds_path example_heap [2%positive; 3%positive] ->
       transform_coordinates example_strip example_float None scenario_lines
         [(100, 50)] 1%positive h'
       = (Raise TypeError, h'))
    ∧ (¬ holds_path example_heap [2%positive; 3%positive] ->
       h' = example_heap
       ∧ transform_coordinates example_strip example_float None scenario_lines
           [(100, 50)] 1%positive h'
         = (Ok (geographic_coords, 1%positive), h')).
Proof.
  apply (transform_coordinates_again example_strip example_float None
           scenario_lines [(100, 50)] 1%positive example_heap
           scenario_world_file [2%positive; 3%positive]).
  - vm_compute. reflexivity.
  - vm_compute. reflexivity.
  - apply NoDup_cons. split; [set_solver|]. apply NoDup_singleton.
  - intros poly [->|Hp]%elem_of_cons;
      [|apply list_elem_of_singleton in Hp as ->];
      eexists; (split; [vm_compute; reflexivity|]); vm_compute; done.
  - vm_compute. reflexivity.
Defined.

(** The example list holds a path, so a second call on it raises. *)
Example example_heap_holds_path :
  holds_path example_heap [2%positive; 3%positive].
Proof.
  eexists 3%positive, _, _, _. split; [set_solver|].
  split; [vm_compute; reflexivity|]. vm_compute. reflexivity.
Qed.

(** ** GeoJSON features *)

Lemma renumber_renumber j k ft :
  renumber k (renumber j ft) = renumber (j + k) ft.
Proof. unfold renumber. simpl. f_equal. lia. Qed.

Lemma renumber_0 ft : renumber 0 ft = ft.
Proof. destruct ft. unfold renumber. simpl. f_equal. lia. Qed.

Lemma fmap_renumber_0 (features : list feature) :
  renumber 0 <$> features = features.
Proof.
  etrans; [|apply list_fmap_id].
  apply list_fmap_ext. intros _ ft _. apply renumber_0.
Qed.

Lemma imap_pair_snd {A : Type} (l : list A) : (imap pair l).*2 = l.
Proof.
  rewrite fmap_imap. etrans; [|apply list_fmap_id].
  rewrite <- imap_const. by apply imap_ext.
Qed.

Lemma renumber_cons_step n ft (features : list feature) :
  renumber n <$> (ft :: (renumber 1 <$> features))
  = renumber n ft :: (renumber (n + 1) <$> features).
Proof.
  rewrite fmap_cons. f_equal. rewrite <- list_fmap_compose.
  apply list_fmap_ext. intros _ x _. simpl.
  by rewrite renumber_renumber, Z.add_comm.
Qed.

Lemma numbered_from_1_cons ft features :
  f_id ft = 1 -> numbered_from_1 features ->
  numbered_from_1 (ft :: (renumber 1 <$> features)).
Proof.
  unfold numbered_from_1. intros Hid Hfs. simpl. rewrite Hid. f_equal.
  rewrite length_fmap, <- fmap_S_seq, <- !list_fmap_compose.
  apply (f_equal (fmap (fun z => z + 1))) in Hfs.
  rewrite <- !list_fmap_compose in Hfs.
  etrans; [exact Hfs|]. apply list_fmap_ext. intros _ n _. simpl. lia.
Qed.

Lemma numbered_from_1_app points lines :
  numbered_from_1 points -> numbered_from_1 lines ->
  numbered_from_1 (points ++ (renumber (Z.of_nat (length points)) <$> lines)).
Proof.
  unfold numbered_from_1. intros Hp Hl.
  rewrite fmap_app, length_app, length_fmap, seq_app, fmap_app, Hp.
  f_equal. rewrite <- list_fmap_compose.
  apply (f_equal (fmap (fun z => z + Z.of_nat (length points)))) in Hl.
  rewrite <- list_fmap_compose in Hl. etrans; [exact Hl|].
  replace (1 + length points)%nat with (length points + 1)%nat by lia.
  rewrite <- (fmap_add_seq (length points)), <- !list_fmap_compose.
  apply list_fmap_ext. intros _ n _. simpl. lia.
Qed.

(** The line loop on a list without empty dictionaries: the features it
    adds do not depend on the state it starts from, up to their ids. *)
Lemma foldM_add_line lower image_filename (polygon_areas : list odict) :
  [] ∉ polygon_areas ->
  ∃ lines,
    (∀ fs n, foldM (add_line lower image_filename) (fs, n) polygon_areas
             = Ok (fs ++ (renumber n <$> lines), n + Z.of_nat (length lines)))
    ∧ numbered_from_1 lines
    ∧ Forall (is_line_feature lower image_filename) lines.
Proof.
  induction polygon_areas as [ | poly rest IH]; intros Hne.
  - exists []. split_and!; [|done|constructor].
    intros fs n. simpl. rewrite app_nil_r. do 2 f_equal. lia.
  - destruct IH as (lines & Hrun & Hnum & Hall); [set_solver|].
    destruct poly as [ | [detection_name area_value] more]; [set_solver|].
    cbn [foldM add_line].
    destruct (is_path lower detection_name) eqn:Hpath;
      [|exists lines; split_and!; [intros fs n; simpl; apply Hrun|done..]].
    set (line_coords := default (VLines [])
                          (get ((detection_name, area_value) :: more)
                             "line_value")) in *.
    destruct (truthy line_coords && is_not_False line_coords) eqn:Hcoords;
      [|exists lines; split_and!; [intros fs n; simpl; apply Hrun|done..]].
    exists (create_linestring_feature line_coords detection_name
              image_filename area_value 1 :: (renumber 1 <$> lines)).
    split_and!.
    + intros fs n. rewrite renumber_cons_step.
      replace (renumber n (create_linestring_feature line_coords
                 detection_name image_filename area_value 1))
        with (create_linestring_feature line_coords detection_name
                image_filename area_value (n + 1))
        by (unfold create_linestring_feature, renumber; simpl; f_equal; lia).
      cbn [mbind result_bind fst snd]. rewrite Hrun, <- app_assoc.
      cbn [app length]. rewrite length_fmap. do 2 f_equal. lia.
    + by apply numbered_from_1_cons.
    + apply andb_true_iff in Hcoords as [Ht Hf]. constructor.
      * split; [by exists line_coords|done].
      * apply Forall_fmap. eapply Forall_impl; [exact Hall|].
        by intros ft (Hg & Hp & Hd).
Qed.

(** An empty dictionary in the list stops the line loop. *)
Lemma foldM_add_line_raises lower image_filename
    (polygon_areas : list odict) st :
  [] ∈ polygon_areas ->
  foldM (add_line lower image_filename) st polygon_areas = Raise IndexError.
Proof.
  revert st. induction polygon_areas as [ | poly rest IH]; intros st Hin;
    [set_solver|].
  destruct poly as [ | [detection_name area_value] more]; [done|].
  cbn [foldM add_line].
  assert ([] ∈ rest) as Hrest by set_solver.
  destruct (is_path lower detection_name); [|simpl; by apply IH].
  destruct (truthy _ && is_not_False _); simpl; by apply IH.
Qed.

(** The point loop: the features it adds are point features of a
    subsequence of the centres, in their order. *)
Lemma foldl_add_point lower polygon_areas image_filename
    (entries : list (nat * (float * float))) :
  ∃ points kept,
    (∀ fs n, foldl (add_point lower polygon_areas image_filename) (fs, n)
               entries
             = (fs ++ (renumber n <$> points), n + Z.of_nat (length points)))
    ∧ numbered_from_1 points
    ∧ Forall (is_point_feature lower image_filename) points
    ∧ kept `sublist_of` entries.*2
    ∧ f_geometry <$> points = Point <$> kept.
Proof.
  induction entries as [ | entry rest IH].
  - exists [], []. split_and!; [|done|constructor|done|done].
    intros fs n. simpl. rewrite app_nil_r. f_equal. lia.
  - destruct IH as (points & kept & Hrun & Hnum & Hall & Hsub & Hgeo).
    cbn [foldl]. unfold add_point at 2.
    set (named := match polygon_areas !! entry.1 with
                  | Some ((detection_name, area_value) :: _) =>
                      (detection_name, area_value)
                  | _ => ("unhealthy-tree", VStr "0.0 m²")
                  end) in *.
    destruct (is_path lower named.1) eqn:Hpath; simpl.
    { exists points, kept. split_and!; [intros fs n; apply Hrun|done..| |done].
      by apply sublist_cons. }
    exists (create_point_feature entry.2 named.1 image_filename named.2 1
              :: (renumber 1 <$> points)), (entry.2 :: kept).
    split_and!.
    + intros fs n. rewrite renumber_cons_step.
      replace (renumber n (create_point_feature entry.2 named.1
                 image_filename named.2 1))
        with (create_point_feature entry.2 named.1 image_filename named.2
                (n + 1))
        by (unfold create_point_feature, renumber; simpl; f_equal; lia).
      cbn [fst snd]. rewrite Hrun, <- app_assoc.
      cbn [app length]. rewrite length_fmap. f_equal. lia.
    + by apply numbered_from_1_cons.
    + constructor.
      * split; [by eexists|done].
      * apply Forall_fmap. eapply Forall_impl; [exact Hall|].
        by intros ft (Hg & Hp & Hd).
    + by apply sublist_skip.
    + simpl. f_equal. rewrite <- list_fmap_compose. exact Hgeo.
Qed.

Lemma generate_geojson_spec lower center_coordinates polygon_areas
    image_filename :
  [] ∉ polygon_areas ->
  ∃ points lines kept,
    generate_geojson lower center_coordinates polygon_areas image_filename
      "winter" = Ok lines
    ∧ (∀ model_type, model_type ≠ "winter" ->
         generate_geojson lower center_coordinates polygon_areas
           image_filename model_type
         = Ok (points ++ (renumber (Z.of_nat (length points)) <$> lines)))
    ∧ numbered_from_1 points ∧ numbered_from_1 lines
    ∧ Forall (is_point_feature lower image_filename) points
    ∧ Forall (is_line_feature lower image_filename) lines
    ∧ kept `sublist_of` center_coordinates
    ∧ f_geometry <$> points = Point <$> kept.
Proof.
  intros Hne.
  destruct (foldM_add_line lower image_filename polygon_areas Hne)
    as (lines & Hlines & Hnl & Hal).
  destruct (foldl_add_point lower polygon_areas image_filename
              (imap pair center_coordinates))
    as (points & kept & Hpoints & Hnp & Hap & Hsub & Hgeo).
  exists points, lines, kept. split_and!; try done.
  - unfold generate_geojson. simpl. rewrite Hlines. simpl.
    by rewrite fmap_renumber_0.
  - intros model_type Hm. unfold generate_geojson.
    apply String.eqb_neq in Hm. rewrite Hm, Hpoints. simpl.
    rewrite fmap_renumber_0, Hlines. simpl. by rewrite Z.add_0_l.
  - by rewrite imap_pair_snd in Hsub.
Qed.

Lemma generate_geojson_raises lower center_coordinates polygon_areas
    image_filename model_type :
  [] ∈ polygon_areas ->
  generate_geojson lower center_coordinates polygon_areas image_filename
    model_type = Raise IndexError.
Proof.
  intros Hin. unfold generate_geojson.
  destruct (String.eqb model_type "winter");
    by rewrite foldM_add_line_raises.
Qed.

Example generate_geojson_example :
  let line_coords := VCoords [(13.4, 52.5); (13.42, 52.49)]%float in
  generate_geojson example_lower [(13.42, 52.49)%float]
    example_polygon_areas "tile.jpeg" "summer"
  = Ok [create_point_feature (13.42, 52.49)%float "tree" "tile.jpeg"
          (VStr "12.5 m²") 1;
        create_linestring_feature line_coords "path" "tile.jpeg"
          (VStr "0.0 m²") 2]
  ∧ generate_geojson example_lower [(13.42, 52.49)%float]
      example_polygon_areas "tile.jpeg" "winter"
    = Ok [create_linestring_feature line_coords "path" "tile.jpeg"
            (VStr "0.0 m²") 1].
Proof. split; by_evaluation. Qed.

(** X14. The features [generate_geojson] returns carry the ids 1, 2, ...,
    n in the order of the list, for either model type. *)
Theorem generate_geojson_ids_count_from_1 lower center_coordinates
    polygon_areas image_filename model_type features :
  generate_geojson lower center_coordinates polygon_areas image_filename
    model_type = Ok features ->
  f_id <$> features = Z.of_nat <$> seq 1 (length features).
Proof.
  intros Hrun.
  assert ([] ∉ polygon_areas) as Hne.
  { intros Hin.
    by rewrite (generate_geojson_raises _ _ _ _ _ Hin) in Hrun. }
  destruct (generate_geojson_spec lower center_coordinates polygon_areas
              image_filename Hne)
    as (points & lines & kept & Hw & Hs & Hnp & Hnl & _).
  destruct (decide (model_type = "winter")) as [->|Hm].
  - rewrite Hw in Hrun. by injection Hrun as <-.
  - rewrite (Hs _ Hm) in Hrun. injection Hrun as <-.
    by apply numbered_from_1_app.
Qed.

Lemma generate_geojson_ids_count_from_1_witness :
  ∃ features,
    generate_geojson example_lower [(13.42, 52.49)%float]
      example_polygon_areas "tile.jpeg" "summer" = Ok features
    ∧ f_id <$> features = Z.of_nat <$> seq 1 (length features).
Proof.
  eexists. split; [vm_compute; reflexivity|].
  apply (generate_geojson_ids_count_from_1 example_lower
           [(13.42, 52.49)%float] example_polygon_areas "tile.jpeg" "summer").
  vm_compute. reflexivity.
Defined.

(** X15. [generate_geojson] raises [IndexError] exactly when the list holds
    an empty dictionary, for either model type: the handler around the
    point loop does not cover the line loop, which reads the first key of
    every entry. Otherwise it returns. *)
Theorem generate_geojson_empty_dictionary lower center_coordinates
    polygon_areas image_filename model_type :
  ([] ∈ polygon_areas ->
   generate_geojson lower center_coordinates polygon_areas image_filename
     model_type = Raise IndexError)
  ∧ ([] ∉ polygon_areas ->
     ∃ features,
       generate_geojson lower center_coordinates polygon_areas
         image_filename model_type = Ok features).
Proof.
  split; [apply generate_geojson_raises|]. intros Hne.
  destruct (generate_geojson_spec lower center_coordinates polygon_areas
              image_filename Hne)
    as (points & lines & kept & Hw & Hs & _).
  destruct (decide (model_type = "winter")) as [->|Hm]; [eauto|].
  rewrite (Hs _ Hm). eauto.
Qed.

(** X16. For a model type other than ["winter"] the result is the point
    features followed by the features of the winter branch with their ids
    moved up by the number of points. The points are those of a
    subsequence of the centres, in their order, none named as a path; the
    lines all are named as paths and have coordinates. *)
Theorem generate_geojson_points_then_winter_lines lower center_coordinates
    polygon_areas image_filename model_type lines :
  model_type ≠ "winter" ->
  generate_geojson lower center_coordinates polygon_areas image_filename
    "winter" = Ok lines ->
  ∃ points kept,
    generate_geojson lower center_coordinates polygon_areas image_filename
      model_type
    = Ok (points ++ (renumber (Z.of_nat (length points)) <$> lines))
    ∧ Forall (is_point_feature lower image_filename) points
    ∧ Forall (is_line_feature lower image_filename) lines
    ∧ kept `sublist_of` center_coordinates
    ∧ f_geometry <$> points = Point <$> kept.
Proof.
  intros Hm Hrun.
  assert ([] ∉ polygon_areas) as Hne.
  { intros Hin.
    by rewrite (generate_geojson_raises _ _ _ _ _ Hin) in Hrun. }
  destruct (generate_geojson_spec lower center_coordinates polygon_areas
              image_filename Hne)
    as (points & lines' & kept & Hw & Hs & _ & _ & Hap & Hal & Hsub & Hgeo).
  rewrite Hw in Hrun. injection Hrun as <-.
  exists points, kept. split_and!; try done. by apply Hs.
Qed.

Lemma generate_geojson_points_then_winter_lines_witness :
  ∃ lines points kept,
    generate_geojson example_lower [(13.42, 52.49)%float]
      example_polygon_areas "tile.jpeg" "winter" = Ok lines
    ∧ generate_geojson example_lower [(13.42, 52.49)%float]
        example_polygon_areas "tile.jpeg" "summer"
      = Ok (points ++ (renumber (Z.of_nat (length points)) <$> lines))
    ∧ Forall (is_point_feature example_lower "tile.jpeg") points
    ∧ Forall (is_line_feature example_lower "tile.jpeg") lines
    ∧ kept `sublist_of` [(13.42, 52.49)%float]
    ∧ f_geometry <$> points = Point <$> kept.
Proof.
  eexists.
  destruct (generate_geojson_points_then_winter_lines example_lower
              [(13.42, 52.49)%float] example_polygon_areas "tile.jpeg"
              "summer" _ ltac:(discriminate)
              ltac:(vm_compute; reflexivity))
    as (points & kept & H).
  exists points, kept. split; [vm_compute; reflexivity|exact H].
Defined.

(** ** File names *)

Lemma is_substring_dot c s :
  is_substring "." (String c s) = Ascii.eqb c "."%char || is_substring "." s.
Proof.
  unfold is_substring. cbn [String.index String.prefix].
  destruct (Ascii.ascii_dec "."%char c) as [<-|Hne].
  - by destruct s.
  - assert (Ascii.eqb c "."%char = false) as ->.
    { apply Ascii.eqb_neq. congruence. }
    simpl. by destruct (String.index 0 "." s).
Qed.

Lemma split_at_last_dot_None s :
  split_at_last_dot s = None ↔ is_substring "." s = false.
Proof.
  induction s as [ | c s IH]; [done|].
  rewrite is_substring_dot. simpl.
  destruct (split_at_last_dot s) as [[before after]| ].
  - split; [done|]. intros [_ H]%orb_false_iff. apply IH in H. done.
  - destruct IH as [IH _]. rewrite IH by done.
    destruct (Ascii.eqb c "."%char); by split.
Qed.

Lemma split_at_last_dot_Some s before after :
  split_at_last_dot s = Some (before, after)
  ↔ s = before +:+ "." +:+ after ∧ is_substring "." after = false.
Proof.
  revert before. induction s as [ | c s IH]; intros before.
  - split; [done|]. intros [H _]. by destruct before.
  - simpl. destruct (split_at_last_dot s) as [[b a]| ] eqn:Hs.
    + split.
      * intros [= <- <-]. destruct (IH b) as [[-> Hno] _]; [done|]. done.
      * intros [H Hno]. destruct before as [ | c' before'].
        -- simpl in H. injection H as -> ->.
           change (split_at_last_dot after = Some (b, a)) in Hs.
           apply split_at_last_dot_None in Hno. congruence.
        -- simpl in H. injection H as -> H.
           destruct (IH before') as [_ IH'].
           specialize (IH' (conj H Hno)). congruence.
    + split.
      * destruct (Ascii.eqb_spec c "."%char); [|done].
        intros [= <- <-]. subst. split; [done|].
        by apply split_at_last_dot_None.
      * intros [H Hno]. destruct before as [ | c' before'].
        -- simpl in H. injection H as -> ->. by rewrite Ascii.eqb_refl.
        -- simpl in H. injection H as -> H.
           destruct (IH before') as [_ IH'].
           by specialize (IH' (conj H Hno)).
Qed.

Example allowed_file_examples :
  let allowed : gset string := {[ "tif"; "tiff"; "zip" ]} in
  allowed_file example_lower "tile.tif" allowed = Ok true
  ∧ allowed_file example_lower "tile.tif.exe" allowed = Ok false
  ∧ allowed_file example_lower "tif" allowed = Ok false
  ∧ allowed_file example_lower "archive.v2.zip" allowed = Ok true.
Proof. repeat split; by_evaluation. Qed.

(** X17. [allowed_file] (and [validate_file_extension], which has the same
    body) never raises, and accepts a name exactly when the text after its
    last full stop, in lower case, is among the allowed extensions: a name
    without a full stop is refused, and only the last extension counts. *)
Theorem allowed_file_last_extension lower filename allowed_extensions :
  (∃ answer, allowed_file lower filename allowed_extensions = Ok answer)
  ∧ (allowed_file lower filename allowed_extensions = Ok true
     ↔ ∃ stem extension,
         filename = stem +:+ "." +:+ extension
         ∧ is_substring "." extension = false
         ∧ lower extension ∈ allowed_extensions).
Proof.
  unfold allowed_file, rsplit.
  destruct (split_at_last_dot filename) as [[before after]| ] eqn:Hs.
  - assert (is_substring "." filename = true) as ->.
    { apply not_false_iff_true. intros H%split_at_last_dot_None. congruence. }
    simpl. split; [eauto|].
    apply split_at_last_dot_Some in Hs as [Hname Hno]. split.
    + intros [= H%bool_decide_eq_true]. by exists before, after.
    + intros (stem & extension & Hname' & Hno' & Hin).
      assert (split_at_last_dot filename = Some (stem, extension)) as H1
        by by apply split_at_last_dot_Some.
      assert (split_at_last_dot filename = Some (before, after)) as H2
        by by apply split_at_last_dot_Some.
      rewrite H1 in H2. injection H2 as <- <-.
      f_equal. by apply bool_decide_eq_true.
  - apply split_at_last_dot_None in Hs as Hno. rewrite Hno.
    split; [eauto|]. split; [done|].
    intros (stem & extension & Hname & Hno' & _).
    assert (split_at_last_dot filename = Some (stem, extension)) as H1
      by by apply split_at_last_dot_Some.
    congruence.
Qed.
